(** * ws_operator: the storm-amplifier WebSocket operator

    A shallow embedding of [examples/ws_operator.py] and the properties of
    its signal transform and message handler.

    Python objects live in a store: every dict is a location, two names of
    one dict share the location, and item assignment updates the store in
    place.  Numbers are Python's: arbitrary-precision ints and binary64
    floats (Rocq's primitive floats), with Python's mixed arithmetic. *)

From Stdlib Require Import ZArith Floats.
From stdpp Require Import base gmap strings list.

#[local] Set Warnings "-inexact-float,-register-all,-clear-no-such-hyp".
#[local] Open Scope Z_scope.

(** ** Python values and the object store *)

Definition loc := positive.

(** Dicts are references into the store.  Lists are never mutated by this
    program and are kept as values. *)
Inductive pyval :=
| PNone
| PBool (b : bool)
| PInt (n : Z)
| PFloat (x : float)
| PStr (s : string)
| PList (xs : list pyval)
| PDict (r : loc).

Abbreviation dict := (gmap string pyval).
Abbreviation heap := (gmap loc (gmap string pyval)).

(** The exceptions the program can meet. *)
Inductive exn :=
| JSONDecodeError
| KeyError (k : string)
| TypeError
| AttributeError
| OverflowError
| ConnectionClosed.

(** Computations over a state [S] that may raise.  A raise keeps the state
    reached so far: Python does not roll back the assignments made before
    an exception. *)
Definition M (S A : Type) : Type := S → (exn + A) * S.

#[global] Instance M_ret {S} : MRet (M S) := λ A a s, (inr a, s).
#[global] Instance M_bind {S} : MBind (M S) := λ A B k c s,
  match c s with
  | (inl e, s') => (inl e, s')
  | (inr a, s') => k a s'
  end.

(** The dict an object denotes: only a reference the store holds. *)
Definition deref (h : heap) (o : pyval) : option dict :=
  match o with
  | PDict r => h !! r
  | _ => None
  end.

(** [o[k]] read through a reference, for stating properties. *)
Definition field (h : heap) (o : pyval) (k : string) : option pyval :=
  deref h o ≫= (.!! k).

(** A dict display [{...}]: a new object, at a location the store does not
    hold yet. *)
Definition new_dict (d : dict) : M heap pyval := λ h,
  let r := fresh (dom h) in (inr (PDict r), <[r := d]> h).

(** [o[k]]: [KeyError] on a dict without [k], [TypeError] on the other
    values (a string key subscripts nothing else). *)
Definition getitem (o : pyval) (k : string) : M heap pyval := λ h,
  match deref h o with
  | Some d =>
      match d !! k with
      | Some v => (inr v, h)
      | None => (inl (KeyError k), h)
      end
  | None => (inl TypeError, h)
  end.

(** [o[k] = v]: the dict is updated where it is. *)
Definition setitem (o : pyval) (k : string) (v : pyval) : M heap () := λ h,
  match o with
  | PDict r =>
      match h !! r with
      | Some d => (inr (), <[r := <[k := v]> d]> h)
      | None => (inl TypeError, h)
      end
  | _ => (inl TypeError, h)
  end.

(** [o.get(k, dflt)].  Only dicts have [get].  Python evaluates the default
    before the call; the default is taken here as a computation that runs
    only when the key is absent, so that the empty dict of
    [signal.get("values", {})] is allocated only when it is used (the unused
    one is unreachable the moment [get] returns). *)
Definition dict_get (o : pyval) (k : string) (dflt : M heap pyval) : M heap pyval := λ h,
  match deref h o with
  | Some d =>
      match d !! k with
      | Some v => (inr v, h)
      | None => dflt h
      end
  | None => (inl AttributeError, h)
  end.

(** ** Python arithmetic on the values met here *)

(** [float(n)] for an int: correctly rounded to nearest even, and
    [OverflowError] when the result is not finite. *)
Definition Z2float (n : Z) : float := SF2Prim (binary_normalize prec emax n 0 false).

Definition int_to_float (n : Z) : exn + float :=
  let x := Z2float n in
  if is_infinity x then inl OverflowError else inr x.

(** The left operand of [v + c] and [v - c] for a float [c]: floats as they
    are, ints and bools ([bool] is a subclass of [int]) converted, anything
    else a [TypeError]. *)
Definition as_float (v : pyval) : exn + float :=
  match v with
  | PFloat x => inr x
  | PInt n => int_to_float n
  | PBool b => int_to_float (if b then 1 else 0)
  | _ => inl TypeError
  end.

(** A result or an exception, as a computation. *)
Definition lift_exn {S A} (r : exn + A) : M S A := λ s, (r, s).

(** The operand a named key contributes: [values.get(name, 0)] converted. *)
Definition operand (o : option pyval) : exn + float := as_float (default (PInt 0) o).

Definition py_add (v : pyval) (c : float) : M heap float :=
  x ← lift_exn (as_float v); mret (x + c)%float.

Definition py_sub (v : pyval) (c : float) : M heap float :=
  x ← lift_exn (as_float v); mret (x - c)%float.

(** [min(a, b)] and [max(a, b)] of the builtins: the first argument is kept
    unless the second is strictly smaller (resp. larger). *)
Definition py_min (a b : float) : float := if (b <? a)%float then b else a.
Definition py_max (a b : float) : float := if (a <? b)%float then b else a.

(** ** transform_signal *)

Definition transform_signal (signal : pyval) : M heap pyval :=
  values ← dict_get signal "values" (new_dict ∅);
  (* Amplify storm-related responders *)
  v ← dict_get values "storm_bringer" (mret (PInt 0));
  x ← py_add v 0.35;
  setitem values "storm_bringer" (PFloat (py_min 1.0 x));;
  v ← dict_get values "void_singer" (mret (PInt 0));
  x ← py_add v 0.15;
  setitem values "void_singer" (PFloat (py_min 1.0 x));;
  v ← dict_get values "spark_lord" (mret (PInt 0));
  x ← py_add v 0.10;
  setitem values "spark_lord" (PFloat (py_min 1.0 x));;
  (* Dampen quiet aspects *)
  v ← dict_get values "quiet_tide" (mret (PInt 0));
  x ← py_sub v 0.20;
  setitem values "quiet_tide" (PFloat (py_max (-1.0) x));;
  v ← dict_get values "silk_shadow" (mret (PInt 0));
  x ← py_sub v 0.10;
  setitem values "silk_shadow" (PFloat (py_max (-1.0) x));;
  setitem signal "values" values;;
  mret signal.

(** ** The connection and the JSON codec *)

(** What the handlers see of the [ws] object: the frames sent so far and
    whether the connection is open.  The store of Python objects is part of
    the same state. *)
Record world (frame : Type) := World {
  store : heap;
  sent : list frame;
  connected : bool
}.
Arguments World {frame} _ _ _.
Arguments store {frame} _.
Arguments sent {frame} _.
Arguments connected {frame} _.

(** A computation on the store, run inside a handler. *)
Definition in_store {frame A} (c : M heap A) : M (world frame) A := λ w,
  let '(r, h) := c (store w) in (r, World h (sent w) (connected w)).

(** [ws.send(data)]: one frame appended in order; the client raises when the
    connection is closed. *)
Definition ws_send {frame} (data : frame) : M (world frame) () := λ w,
  if connected w
  then (inr (), World (store w) (sent w ++ [data]) (connected w))
  else (inl ConnectionClosed, w).

(** [v == s] for a string literal [s]. *)
Definition py_eq_str (v : pyval) (s : string) : bool :=
  match v with
  | PStr t => bool_decide (t = s)
  | _ => false
  end.

(** [HOST = sys.argv[1] if len(sys.argv) > 1 else "localhost:4000"] *)
Definition HOST (argv : list string) : string :=
  match argv with
  | _ :: host :: _ => host
  | _ => "localhost:4000"
  end.

Definition AGENT_ID : string := "storm_amplifier".

Section Handlers.
Context {frame : Type}.

(** The [json] module is a dependency of the script, not part of it.
    [json_loads] builds the decoded value in the store, or fails
    ([JSONDecodeError]); [json_dumps] reads the value it is given from the
    store and cannot fail on what this program passes to it. *)
Variable json_loads : frame → heap → option (pyval * heap).
Variable json_dumps : heap → pyval → frame.

Definition loads (message : frame) : M (world frame) pyval := λ w,
  match json_loads message (store w) with
  | Some (v, h) => (inr v, World h (sent w) (connected w))
  | None => (inl JSONDecodeError, w)
  end.

Definition dumps (v : pyval) : M (world frame) frame := λ w,
  (inr (json_dumps (store w) v), w).

(** [print] writes to the console and is not modelled beyond the
    evaluation of its argument, which can raise. *)
Definition on_message (message : frame) : M (world frame) () :=
  msg ← loads message;
  in_store (getitem msg "type");; dumps msg;;               (* print(...) *)
  t ← in_store (getitem msg "type");
  if py_eq_str t "transform" then
    (* Transform the signal *)
    s ← in_store (getitem msg "signal");
    signal ← in_store (transform_signal s);
    rid ← in_store (getitem msg "request_id");
    response ← in_store (new_dict {[ "type" := PStr "transform_result";
                                     "request_id" := rid;
                                     "signal" := signal ]});
    in_store (getitem msg "request_id");;                   (* print(...) *)
    data ← dumps response;
    ws_send data
  else
    t ← in_store (getitem msg "type");
    if py_eq_str t "registered" then
      in_store (getitem msg "agent_id");;                   (* print(...) *)
      mret ()
    else
      t ← in_store (getitem msg "type");
      if py_eq_str t "pong" then
        mret ()  (* Heartbeat response *)
      else mret ().

Definition on_error (error : exn) : M (world frame) () := mret ().

Definition on_close (close_status_code close_msg : pyval) : M (world frame) () := mret ().

Definition on_open : M (world frame) () :=
  (* Register as an operator *)
  register_msg ← in_store (new_dict {[ "type" := PStr "register";
                                       "agent_id" := PStr AGENT_ID;
                                       "capabilities" := PList [PStr "transform"] ]});
  data ← dumps register_msg;
  ws_send data.
End Handlers.

(** ** A reference codec

    Frames as parsed documents: a frame is either text that is not JSON or
    the document it parses to.  [load] builds the Python value of a document
    in the store (every object a new dict, a repeated member name keeping its
    last value); [dump] reads a value back from the store.  The handlers are
    run on this codec in the scenarios below; the theorems about them hold
    for any codec. *)

Inductive json :=
| JNull
| JBool (b : bool)
| JInt (n : Z)
| JFloat (x : float)
| JStr (s : string)
| JArr (js : list json)
| JObj (kvs : list (string * json)).

Inductive frame := NotJSON (text : string) | Doc (j : json).

Fixpoint load (j : json) (h : heap) : pyval * heap :=
  match j with
  | JNull => (PNone, h)
  | JBool b => (PBool b, h)
  | JInt n => (PInt n, h)
  | JFloat x => (PFloat x, h)
  | JStr s => (PStr s, h)
  | JArr js =>
      let '(vs, h') :=
        (fix items js h : list pyval * heap :=
           match js with
           | [] => ([], h)
           | j :: js =>
               let '(v, h1) := load j h in
               let '(vs, h2) := items js h1 in (v :: vs, h2)
           end) js h in
      (PList vs, h')
  | JObj kvs =>
      let '(d, h') :=
        (fix members kvs (d : dict) h : dict * heap :=
           match kvs with
           | [] => (d, h)
           | (k, j) :: kvs =>
               let '(v, h1) := load j h in members kvs (<[k := v]> d) h1
           end) kvs ∅ h in
      let r := fresh (dom h') in (PDict r, <[r := d]> h')
  end.

(** The encoder gives up below Python's recursion limit; the members of an
    object come out in the enumeration order of the map. *)
Fixpoint dump (depth : nat) (h : heap) (v : pyval) : json :=
  match depth with
  | O => JNull
  | S depth =>
      match v with
      | PNone => JNull
      | PBool b => JBool b
      | PInt n => JInt n
      | PFloat x => JFloat x
      | PStr s => JStr s
      | PList vs => JArr (map (dump depth h) vs)
      | PDict r => JObj (map_to_list (dump depth h <$> default ∅ (h !! r)))
      end
  end.

Definition doc_loads (message : frame) (h : heap) : option (pyval * heap) :=
  match message with
  | Doc j => Some (load j h)
  | NotJSON _ => None
  end.

Definition doc_dumps (h : heap) (v : pyval) : frame := Doc (dump 1000 h v).

(** ** Vocabulary of the properties *)

Definition named : list string :=
  ["storm_bringer"; "void_singer"; "spark_lord"; "quiet_tide"; "silk_shadow"].

(** The values mapping of a signal, empty when the signal has none: what
    [signal.get("values", {})] denotes. *)
Definition values_of (h : heap) (signal : pyval) : dict :=
  default ∅ (field h signal "values" ≫= deref h).

(** The five operands read by one call. *)
Record weights := Weights {
  storm_bringer : float;
  void_singer : float;
  spark_lord : float;
  quiet_tide : float;
  silk_shadow : float
}.

Definition operands (vd : dict) : option weights :=
  match operand (vd !! "storm_bringer"), operand (vd !! "void_singer"),
        operand (vd !! "spark_lord"), operand (vd !! "quiet_tide"),
        operand (vd !! "silk_shadow") with
  | inr a, inr b, inr c, inr d, inr e => Some (Weights a b c d e)
  | _, _, _, _, _ => None
  end.

(** The values mapping after the five assignments. *)
Definition adjusted (vd : dict) (ws : weights) : dict :=
  <["silk_shadow" := PFloat (py_max (-1.0) (silk_shadow ws - 0.10))]>
  (<["quiet_tide" := PFloat (py_max (-1.0) (quiet_tide ws - 0.20))]>
  (<["spark_lord" := PFloat (py_min 1.0 (spark_lord ws + 0.10))]>
  (<["void_singer" := PFloat (py_min 1.0 (void_singer ws + 0.15))]>
  (<["storm_bringer" := PFloat (py_min 1.0 (storm_bringer ws + 0.35))]> vd)))).

(** Where [signal.get("values", {})] finds the mapping: the dict the signal
    already refers to, or a new empty one. *)
Definition values_cell (h : heap) (sd : dict) (lv : loc) (vd : dict) (h1 : heap) : Prop :=
  (sd !! "values" = Some (PDict lv) ∧ h !! lv = Some vd ∧ h1 = h) ∨
  (sd !! "values" = None ∧ lv = fresh (dom h) ∧ vd = ∅ ∧ h1 = <[lv := ∅]> h).

(** The store after a successful call. *)
Definition transformed (h1 : heap) (ls lv : loc) (sd vd : dict) (ws : weights) : heap :=
  <[ls := <["values" := PDict lv]> (if decide (ls = lv) then adjusted vd ws else sd)]>
    (<[lv := adjusted vd ws]> h1).

Definition response_dict (rid signal : pyval) : dict :=
  {[ "type" := PStr "transform_result"; "request_id" := rid; "signal" := signal ]}.

Definition register_dict : dict :=
  {[ "type" := PStr "register"; "agent_id" := PStr AGENT_ID;
     "capabilities" := PList [PStr "transform"] ]}.

(** Repeated application to the same signal object. *)
Fixpoint iterate (n : nat) (signal : pyval) : M heap pyval :=
  match n with
  | O => mret signal
  | S n => s ← transform_signal signal; iterate n s
  end.

(** ** Binary64 arithmetic as integers

    Every finite binary64 number is an integer multiple of 2^-1074, so its
    value times 2^1074 is an integer; the infinities are given the first
    power of two no finite number reaches.  On these integers the rounding
    of [+] and [-] is a function on [Z], and the order of the floats is the
    order of [Z]. *)

(** The scaled value given to the infinities: 2^1024 times 2^1074. *)
Definition huge : Z := 2 ^ 2098.

Definition scaled (f : spec_float) : Z :=
  match f with
  | S754_zero _ => 0
  | S754_finite s m e => cond_Zopp s (Zpos m * 2 ^ (e + 1074))
  | S754_infinity s => cond_Zopp s huge
  | S754_nan => 0
  end.

(** Round [v / 2^k] to the nearest integer, ties to even. *)
Definition rne_at (k v : Z) : Z :=
  let q := v / 2 ^ k in
  match 2 * (v mod 2 ^ k) ?= 2 ^ k with
  | Lt => q
  | Gt => q + 1
  | Eq => if Z.even q then q else q + 1
  end.

(** The exponent of the last place of a nonnegative scaled value: 53
    significant bits, none below the subnormal grid. *)
Definition ulp_exp (v : Z) : Z := Z.max (Z.log2 v + 1 - 53) 0.

(** Rounding of a nonnegative scaled value, overflowing to infinity. *)
Definition rnd_pos (v : Z) : Z := Z.min (rne_at (ulp_exp v) v * 2 ^ ulp_exp v) huge.

Definition rnd (v : Z) : Z := Z.sgn v * rnd_pos (Z.abs v).

Definition grid (v : Z) : Z := rne_at (ulp_exp v) v * 2 ^ ulp_exp v.

(** What the shift-right loop of [SpecFloat] has computed after [n] steps
    on the mantissa [m]. *)
Definition shr_inv (m n : Z) (mrs : shr_record) : Prop :=
  shr_m mrs = m / 2 ^ n /\
  loc_of_shr_record mrs =
    (if m mod 2 ^ n =? 0 then loc_Exact else loc_Inexact (2 * (m mod 2 ^ n) ?= 2 ^ n)).

Definition is_nan_sf (f : spec_float) : bool :=
  match f with S754_nan => true | _ => false end.

Definition finite_sf (f : spec_float) : bool :=
  match f with S754_zero _ | S754_finite _ _ _ => true | _ => false end.

Definition sc (x : float) : Z := scaled (Prim2SF x).
Definition nanb (x : float) : bool := is_nan_sf (Prim2SF x).
Definition finb (x : float) : bool := finite_sf (Prim2SF x).

(** The scaled value of [x + c] from that of [x], for a finite [c] of
    scaled value [d]: an infinity stays, anything else is rounded. *)
Definition shiftF (d v : Z) : Z := if Z.abs v =? huge then v else rnd (v + d).

(** One amplification and one dampening of [transform_signal], on the
    operand. *)
Definition amp (c x : float) : float := py_min 1.0 (x + c).
Definition damp (c x : float) : float := py_max (-1.0) (x - c).

(** ** Repeated application *)

(** The declared range of a weight. *)
Definition in_range (x : float) : Prop :=
  (-1.0 <=? x)%float = true ∧ (x <=? 1.0)%float = true.

(** An entry of the values mapping that is absent or a number of the
    declared range. *)
Definition weight_in_range (o : option pyval) : Prop :=
  ∃ x, operand o = inr x ∧ in_range x.

(** The operands of the next call, from those of this one. *)
Definition advance (ws : weights) : weights :=
  Weights (amp 0.35 (storm_bringer ws)) (amp 0.15 (void_singer ws))
          (amp 0.10 (spark_lord ws)) (damp 0.20 (quiet_tide ws))
          (damp 0.10 (silk_shadow ws)).

(** The five entries of a values mapping are the floats [ws]. *)
Definition entries (vd : dict) (ws : weights) : Prop :=
  vd !! "storm_bringer" = Some (PFloat (storm_bringer ws)) ∧
  vd !! "void_singer" = Some (PFloat (void_singer ws)) ∧
  vd !! "spark_lord" = Some (PFloat (spark_lord ws)) ∧
  vd !! "quiet_tide" = Some (PFloat (quiet_tide ws)) ∧
  vd !! "silk_shadow" = Some (PFloat (silk_shadow ws)).

(** A signal that has been transformed at least once: it refers to its
    values mapping, whose five entries are the floats [ws]. *)
Definition holds (h : heap) (signal : pyval) (ws : weights) : Prop :=
  ∃ ls sd lv vd,
    signal = PDict ls ∧ h !! ls = Some sd ∧
    sd !! "values" = Some (PDict lv) ∧ h !! lv = Some vd ∧ entries vd ws.

(** The weights every adjusted key ends at. *)
Definition saturated : weights := Weights 1.0 1.0 1.0 (-1.0) (-1.0).

(** ** Scenarios *)

(** [{"values": {}}] at location 1, its mapping at location 2. *)
Definition empty_signal : heap :=
  {[ 1%positive := {[ "values" := PDict 2%positive ]}; 2%positive := ∅ ]}.

(** The outcome of Scenario 1. *)
Definition amplified_once : heap :=
  {[ 1%positive := {[ "values" := PDict 2%positive ]};
     2%positive := {[ "storm_bringer" := PFloat 0.35; "void_singer" := PFloat 0.15;
                      "spark_lord" := PFloat 0.10; "quiet_tide" := PFloat (-0.20);
                      "silk_shadow" := PFloat (-0.10) ]} ]}.

(** [{"values": {"storm_bringer": 0.9}}] *)
Definition storm_at_09 : heap :=
  {[ 1%positive := {[ "values" := PDict 2%positive ]};
     2%positive := {[ "storm_bringer" := PFloat 0.9 ]} ]}.

(** [{"values": {"storm_bringer": 0.5, "ember_wing": 0.25}, "origin": "hub"}] *)
Definition storm_and_more : heap :=
  {[ 1%positive := {[ "values" := PDict 2%positive; "origin" := PStr "hub" ]};
     2%positive := {[ "storm_bringer" := PFloat 0.5; "ember_wing" := PFloat 0.25 ]} ]}.

Definition storm_and_more_after : heap :=
  Eval vm_compute in (transform_signal (PDict 1%positive) storm_and_more).2.

(** [{"values": {"storm_bringer": -5.0}}]: a weight below the range. *)
Definition storm_at_minus_5 : heap :=
  {[ 1%positive := {[ "values" := PDict 2%positive ]};
     2%positive := {[ "storm_bringer" := PFloat (-5.0) ]} ]}.

(** A weight so far below the range that adding 0.35 rounds back to it,
    the other four at their bounds. *)
Definition frozen_storm : heap :=
  {[ 1%positive := {[ "values" := PDict 2%positive ]};
     2%positive := {[ "storm_bringer" := PFloat (-1e300); "void_singer" := PFloat 1.0;
                      "spark_lord" := PFloat 1.0; "quiet_tide" := PFloat (-1.0);
                      "silk_shadow" := PFloat (-1.0) ]} ]}.

(** An integer weight too large for a float. *)
Definition storm_at_10_pow_400 : heap :=
  {[ 1%positive := {[ "values" := PDict 2%positive ]};
     2%positive := {[ "storm_bringer" := PInt (10 ^ 400) ]} ]}.

(** Scenario 1 applied twice. *)
Definition amplified_twice : heap :=
  {[ 1%positive := {[ "values" := PDict 2%positive ]};
     2%positive := {[ "storm_bringer" := PFloat 0.7; "void_singer" := PFloat 0.3;
                      "spark_lord" := PFloat 0.2; "quiet_tide" := PFloat (-0.4);
                      "silk_shadow" := PFloat (-0.2) ]} ]}.

Definition idle : world frame := World ∅ [] true.

(** Scenario 3 *)
Definition transform_r1 : frame :=
  Doc (JObj [("type", JStr "transform"); ("request_id", JStr "r1");
             ("signal", JObj [("values", JObj [])])]).

Definition decoded_r1 : pyval * heap :=
  Eval vm_compute in
    load (JObj [("type", JStr "transform"); ("request_id", JStr "r1");
                ("signal", JObj [("values", JObj [])])]) ∅.

Definition answered_r1 : world frame :=
  Eval vm_compute in (on_message doc_loads doc_dumps transform_r1 idle).2.

(** Scenario 4 *)
Definition pong : frame := Doc (JObj [("type", JStr "pong")]).

Definition decoded_pong : pyval * heap :=
  Eval vm_compute in load (JObj [("type", JStr "pong")]) ∅.

(** Scenario 5 *)
Definition mystery : frame := Doc (JObj [("type", JStr "shutdown"); ("grace", JInt 5)]).

Definition registered : frame :=
  Doc (JObj [("type", JStr "registered"); ("agent_id", JStr "storm_amplifier")]).

(** Malformed frames *)
Definition not_json : frame := NotJSON "{ type: transform".

Definition no_type : frame := Doc (JObj [("request_id", JStr "r2")]).

Definition decoded_no_type : pyval * heap :=
  Eval vm_compute in load (JObj [("request_id", JStr "r2")]) ∅.

Definition no_request_id : frame :=
  Doc (JObj [("type", JStr "transform"); ("signal", JObj [("values", JObj [])])]).

Definition decoded_no_request_id : pyval * heap :=
  Eval vm_compute in
    load (JObj [("type", JStr "transform"); ("signal", JObj [("values", JObj [])])]) ∅.

Definition registered_world : world frame :=
  Eval vm_compute in (on_open doc_dumps idle).2.

(** ** The adjusted keys, by direction *)


Definition dampened : list (string * float) :=
  [("quiet_tide", 0.20%float); ("silk_shadow", 0.10%float)].



(** ** More scenarios *)





(** The five weights at the far bounds of the declared range. *)
Definition far_bounds : heap :=
  {[ 1%positive := {[ "values" := PDict 2%positive ]};
     2%positive := {[ "storm_bringer" := PFloat (-1.0); "void_singer" := PFloat (-1.0);
                      "spark_lord" := PFloat (-1.0); "quiet_tide" := PFloat 1.0;
                      "silk_shadow" := PFloat 1.0 ]} ]}.





(** ** Binary64: the rounding of [SpecFloat], on scaled integers

    [SpecFloat] rounds by shifting the mantissa right and keeping a round
    and a sticky bit.  The lemmas below show that this is [rnd] on the
    scaled value, that [rnd] is monotone and leaves representable values
    alone, and that the comparison of two valid numbers is the comparison
    of their scaled values.  The primitive operations inherit all of it
    through their specifications. *)

Lemma digits2_size p : digits2_pos p = Pos.size p.
Proof. induction p; simpl; congruence. Qed.

Lemma Zdigits p : Zpos (digits2_pos p) = Z.log2 (Zpos p) + 1.
Proof.
  rewrite digits2_size. symmetry.
  induction p; simpl; try lia.
Qed.

Lemma iter_pos_nat {A} (f : A -> A) p x : SpecFloat.iter_pos f p x = Nat.iter (Pos.to_nat p) f x.
Proof.
  revert x. induction p as [p IH|p IH|]; intros x; cbn [SpecFloat.iter_pos].
  - rewrite !IH. rewrite Pos2Nat.inj_xI. 
    replace (S (2 * Pos.to_nat p))%nat with (Pos.to_nat p + (Pos.to_nat p + 1))%nat by lia.
    rewrite !Nat.iter_add. simpl. reflexivity.
  - rewrite !IH. rewrite Pos2Nat.inj_xO.
    replace (2 * Pos.to_nat p)%nat with (Pos.to_nat p + Pos.to_nat p)%nat by lia.
    rewrite Nat.iter_add. reflexivity.
  - reflexivity.
Qed.

Ltac loc_solve :=
  cbn [loc_of_shr_record shr_m shr_r shr_s negb orb];
  repeat match goal with
  | |- context [?a =? ?b] => let E := fresh in destruct (Z.eqb_spec a b) as [E|E]
  end; cbn [loc_of_shr_record shr_m shr_r shr_s negb orb]; try reflexivity; try lia;
  f_equal; symmetry;
  first [apply Z.compare_lt_iff; lia | apply Z.compare_eq_iff; lia | apply Z.compare_gt_iff; lia].

(** *** The shift-right loop *)

Lemma shr_inv_0 m : shr_inv m 0 (Build_shr_record m false false).
Proof. unfold shr_inv. simpl. rewrite Z.div_1_r, Z.mod_1_r. auto. Qed.

Lemma shr_1_inv m n mrs : 0 <= m -> 0 <= n -> shr_inv m n mrs -> shr_inv m (n + 1) (shr_1 mrs).
Proof.
  intros Hm Hn [Hq Hl].
  assert (Hp : 0 < 2 ^ n) by (apply Z.pow_pos_nonneg; lia).
  assert (Hpow : 2 ^ (n + 1) = 2 * 2 ^ n) by (rewrite Z.pow_add_r by lia; lia).
  pose proof (Z.div_mod m (2 ^ n) ltac:(lia)) as Hdm.
  pose proof (Z.mod_pos_bound m (2 ^ n) Hp) as Hr.
  pose proof (Z.div_pos m (2 ^ n) Hm Hp) as Hq0.
  set (q := m / 2 ^ n) in *. set (r := m mod 2 ^ n) in *.
  assert (Hdiv : m / 2 ^ (n + 1) = q / 2).
  { rewrite Hpow. rewrite Z.mul_comm. rewrite <- Z.div_div by lia. reflexivity. }
  assert (Hmod : m mod 2 ^ (n + 1) = (q mod 2) * 2 ^ n + r).
  { rewrite Hpow. rewrite Z.mul_comm. rewrite Z.rem_mul_r by lia. fold q r. lia. }
  unfold shr_inv. rewrite Hdiv, Hmod. clearbody q r. clear Hdiv Hmod.
  pose proof (Z.div_mod q 2 ltac:(lia)) as Hq2.
  pose proof (Z.mod_pos_bound q 2 ltac:(lia)) as Hq2b.
  destruct mrs as [mm rr ss]. simpl in Hq. subst mm.
  assert (Hs : orb rr ss = negb (r =? 0)).
  { simpl in Hl. destruct (r =? 0); destruct rr, ss; simpl in *; congruence. }
  clear Hl. unfold shr_1. rewrite Hs.
  destruct q as [|[q'|q'|]|]; try lia; simpl shr_m.
  - change (0 / 2) with 0. change (0 mod 2) with 0. split; [reflexivity|]. loc_solve.
  - assert (Z.pos q'~1 / 2 = Z.pos q') as -> by lia.
    assert (Z.pos q'~1 mod 2 = 1) as -> by lia.
    split; [reflexivity|]. loc_solve.
  - assert (Z.pos q'~0 / 2 = Z.pos q') as -> by lia.
    assert (Z.pos q'~0 mod 2 = 0) as -> by lia.
    split; [reflexivity|]. loc_solve.
  - change (1 / 2) with 0. change (1 mod 2) with 1. split; [reflexivity|]. loc_solve.
Qed.

Lemma shr_iter_inv m p :
  0 <= m -> shr_inv m (Zpos p) (SpecFloat.iter_pos shr_1 p (Build_shr_record m false false)).
Proof.
  intros Hm. rewrite iter_pos_nat. rewrite <- (positive_nat_Z p).
  induction (Pos.to_nat p) as [|n IH].
  - apply shr_inv_0.
  - rewrite Nat2Z.inj_succ. unfold Z.succ. simpl Nat.iter. apply shr_1_inv; [lia|lia|exact IH].
Qed.

(** *** Powers of two *)

Lemma pow2_pos n : 0 <= n -> 0 < 2 ^ n.
Proof. intros. apply Z.pow_pos_nonneg; lia. Qed.

Lemma round_of_inv m n mrs :
  0 <= n -> shr_inv m n mrs ->
  round_nearest_even (shr_m mrs) (loc_of_shr_record mrs) = rne_at n m.
Proof.
  intros Hn [Hq Hl]. rewrite Hq, Hl. unfold rne_at.
  pose proof (pow2_pos n Hn).
  destruct (Z.eqb_spec (m mod 2 ^ n) 0) as [E|E]; cbn [round_nearest_even].
  - rewrite E. assert ((2 * 0 ?= 2 ^ n) = Lt) as -> by (apply Z.compare_lt_iff; lia).
    reflexivity.
  - destruct (2 * (m mod 2 ^ n) ?= 2 ^ n); reflexivity.
Qed.

Lemma shr_spec m e n :
  0 <= m -> 0 <= n ->
  shr_inv m n (fst (shr (Build_shr_record m false false) e n)) /\
  snd (shr (Build_shr_record m false false) e n) = e + n.
Proof.
  intros Hm Hn. unfold shr. destruct n as [|p|p]; try lia; cbn [fst snd].
  - split; [apply shr_inv_0|lia].
  - split; [apply shr_iter_inv; assumption|reflexivity].
Qed.

(** *** Alignment *)

Lemma iter_xO p j : Zpos (Pos.iter xO p j) = Zpos p * 2 ^ Zpos j.
Proof.
  induction j as [|j IH] using Pos.peano_ind.
  - simpl. lia.
  - rewrite Pos.iter_succ, Pos2Z.inj_xO, IH, Pos2Z.inj_succ.
    unfold Z.succ. rewrite Z.pow_add_r by lia. lia.
Qed.

Lemma shl_align_spec p e e' :
  let '(mz, ez) := shl_align p e e' in
  ez = Z.min e e' /\ Zpos mz = Zpos p * 2 ^ (e - ez).
Proof.
  unfold shl_align. destruct (e' - e) as [|d|d] eqn:E.
  - split; [lia|]. rewrite Z.sub_diag. lia.
  - split; [lia|]. rewrite Z.sub_diag. lia.
  - split; [lia|]. rewrite iter_xO. f_equal. f_equal. lia.
Qed.

Lemma log2_shift m j : 0 < m -> 0 <= j -> Z.log2 (m * 2 ^ j) = Z.log2 m + j.
Proof. intros. rewrite Z.log2_mul_pow2 by lia. lia. Qed.

(** *** Rounding to nearest even *)

Lemma rne_at_shift n j m :
  0 <= n -> 0 <= j -> rne_at (n + j) (m * 2 ^ j) = rne_at n m.
Proof.
  intros Hn Hj. unfold rne_at.
  pose proof (pow2_pos n Hn). pose proof (pow2_pos j Hj).
  rewrite Z.pow_add_r by lia.
  rewrite Z.div_mul_cancel_r by lia.
  rewrite Zmult_mod_distr_r.
  assert ((2 * (m mod 2 ^ n * 2 ^ j) ?= 2 ^ n * 2 ^ j) = (2 * (m mod 2 ^ n) ?= 2 ^ n)) as ->; [|reflexivity].
  destruct (Z.compare_spec (2 * (m mod 2 ^ n)) (2 ^ n)).
  - apply Z.compare_eq_iff. nia.
  - apply Z.compare_lt_iff. nia.
  - apply Z.compare_gt_iff. nia.
Qed.

Lemma rne_at_bounds k v :
  0 <= k -> 0 <= v -> v / 2 ^ k <= rne_at k v <= v / 2 ^ k + 1.
Proof. intros. unfold rne_at. destruct (_ ?= _); [destruct (Z.even _)| |]; lia. Qed.

Lemma rne_at_exact k v : 0 <= k -> v mod 2 ^ k = 0 -> rne_at k v = v / 2 ^ k.
Proof.
  intros Hk E. unfold rne_at. rewrite E. pose proof (pow2_pos k Hk).
  assert ((2 * 0 ?= 2 ^ k) = Lt) as -> by (apply Z.compare_lt_iff; lia). reflexivity.
Qed.

Lemma log2_digits m d : 0 < m -> (Z.log2 m + 1 = d <-> 2 ^ (d - 1) <= m < 2 ^ d).
Proof.
  intros Hm. split.
  - intros <-. replace (Z.log2 m + 1 - 1) with (Z.log2 m) by lia.
    pose proof (Z.log2_spec m Hm). unfold Z.succ in *. lia.
  - intros Hb. assert (0 <= d - 1).
    { destruct (Z.le_gt_cases 0 (d - 1)); [assumption|].
      rewrite (Z.pow_neg_r 2 (d - 1)) in Hb by lia.
      assert (d = 0 \/ d < 0) as [->| ] by lia; [simpl in Hb; lia|].
      rewrite (Z.pow_neg_r 2 d) in Hb by lia. lia. }
    enough (Z.log2 m = d - 1) by lia.
    apply Z.log2_unique; [assumption|]. unfold Z.succ. replace (d - 1 + 1) with d by lia. assumption.
Qed.

Lemma fexp_eq x : fexp prec emax x = Z.max (x - 53) (-1074).
Proof. reflexivity. Qed.

Lemma pow2_le a b : 0 <= a <= b -> 2 ^ a <= 2 ^ b.
Proof. intros. apply Z.pow_le_mono_r; lia. Qed.

Lemma pow2_lt a b : 0 <= a < b -> 2 ^ a < 2 ^ b.
Proof. intros. apply Z.pow_lt_mono_r; lia. Qed.

Lemma pow2_split a b : 0 <= a -> 0 <= b -> 2 ^ (a + b) = 2 ^ a * 2 ^ b.
Proof. intros. apply Z.pow_add_r; lia. Qed.

Lemma mul_lt_bounds a b c d : 0 < a < c -> 0 < b <= d -> a * b < c * d.
Proof. intros. nia. Qed.

Lemma mul_le_bounds a b c d : 0 <= a <= c -> 0 <= b <= d -> a * b <= c * d.
Proof. intros. nia. Qed.

Lemma huge_pos : 0 < huge.
Proof. unfold huge. apply pow2_pos. lia. Qed.

Lemma huge_53 : huge = 2 ^ 53 * 2 ^ 2045.
Proof. unfold huge. rewrite <- (pow2_split 53 2045) by lia. reflexivity. Qed.

Lemma huge_52 : huge = 2 ^ 52 * 2 ^ 2046.
Proof. unfold huge. rewrite <- (pow2_split 52 2046) by lia. reflexivity. Qed.

(** Mantissa after rounding a positive integer [m] of [D] digits to
    precision 53 with minimal exponent: either normal or subnormal. *)
Lemma rne_normal m n :
  0 < m -> 0 <= n -> Z.log2 m + 1 = n + 53 ->
  2 ^ 52 <= rne_at n m <= 2 ^ 53.
Proof.
  intros Hm Hn Hd.
  apply log2_digits in Hd; [|assumption].
  replace (n + 53 - 1) with (n + 52) in Hd by lia.
  rewrite !(Z.add_comm n) in Hd. rewrite !pow2_split in Hd by lia.
  pose proof (pow2_pos n Hn) as Hp.
  pose proof (rne_at_bounds n m Hn ltac:(lia)) as Hb.
  assert (2 ^ 52 <= m / 2 ^ n) by (apply Z.div_le_lower_bound; lia).
  assert (m / 2 ^ n < 2 ^ 53) by (apply Z.div_lt_upper_bound; lia).
  lia.
Qed.

Lemma Zdigits2_log2 m : 0 < m -> Zdigits2 m = Z.log2 m + 1.
Proof. destruct m; try lia. intros _. apply Zdigits. Qed.

(** [binary_round_aux] on an exact positive mantissa: the scaled result is
    the mantissa rounded at the exponent [fexp] chooses, or the infinity. *)
Lemma round_aux_scaled s mz ez :
  -1074 <= ez ->
  ez <= fexp prec emax (Zpos (digits2_pos mz) + ez) ->
  let fe := fexp prec emax (Zpos (digits2_pos mz) + ez) in
  let r := binary_round_aux prec emax s (Zpos mz) ez loc_Exact in
  r <> S754_nan /\
  scaled r = cond_Zopp s (Z.min (rne_at (fe - ez) (Zpos mz) * 2 ^ (fe + 1074)) huge).
Proof.
  intros Hez Hfe fe r. subst r. unfold binary_round_aux, shr_fexp.
  cbn [shr_record_of_loc]. change (Zdigits2 (Zpos mz)) with (Zpos (digits2_pos mz)).
  fold fe. fold fe in Hfe.
  set (n := fe - ez). assert (Hn : 0 <= n) by (unfold n; lia).
  destruct (shr_spec (Zpos mz) ez n ltac:(lia) Hn) as [Hinv He'].
  destruct (shr _ ez n) as [mrs' e']. cbn [fst snd] in Hinv, He'.
  rewrite (round_of_inv _ _ _ Hn Hinv).
  set (m1 := rne_at n (Zpos mz)).
  assert (e' = fe) as -> by (unfold n in He'; lia).
  (* shape of m1 *)
  assert (Hfe_eq : fe = Z.max (Z.log2 (Zpos mz) + 1 + ez - 53) (-1074)).
  { unfold fe. rewrite fexp_eq, Zdigits. reflexivity. }
  clearbody fe.
  assert (Hshape : (-1074 <= fe /\ 2 ^ 52 <= m1 <= 2 ^ 53) \/ (fe = -1074 /\ 0 < m1 < 2 ^ 52)).
  { destruct (Z.le_gt_cases (-1074) (Z.log2 (Zpos mz) + 1 + ez - 53)) as [Hc|Hc].
    - left. split; [lia|]. apply rne_normal; [lia|lia|unfold n; lia].
    - right. assert (fe = -1074) by lia. split; [assumption|].
      assert (n = 0) by (unfold n; lia).
      unfold m1. rewrite H0. rewrite rne_at_exact by (try lia; apply Z.mod_1_r).
      rewrite Z.div_1_r. split; [lia|].
      assert (Z.log2 (Zpos mz) + 1 <= 52) by lia.
      destruct (Z.log2_spec (Zpos mz) ltac:(lia)) as [_ Hu]. unfold Z.succ in Hu.
      pose proof (pow2_le (Z.log2 (Z.pos mz) + 1) 52 ltac:(pose proof (Z.log2_nonneg (Zpos mz)); lia)).
      lia. }
  assert (Hm1 : 0 < m1).
  { pose proof (pow2_pos 52 ltac:(lia)). destruct Hshape as [[_ ?]|[_ ?]]; lia. }
  rewrite (Zdigits2_log2 m1 Hm1), fexp_eq.
  set (n2 := Z.max (Z.log2 m1 + 1 + fe - 53) (-1074) - fe).
  assert (Hn2 : (n2 = 0 /\ m1 < 2 ^ 53) \/ (n2 = 1 /\ m1 = 2 ^ 53 /\ -1074 <= fe)).
  { destruct Hshape as [[Hf [Hlo Hhi]]|[Hf [Hlo Hhi]]].
    - destruct (Z.eq_dec m1 (2 ^ 53)) as [E|E].
      + right. split; [|auto]. unfold n2. rewrite E. rewrite Z.log2_pow2 by lia. lia.
      + left. split; [|lia]. unfold n2.
        assert (Z.log2 m1 + 1 = 53) as ->; [|lia].
        apply log2_digits; [lia|]. replace (53 - 1) with 52 by lia. lia.
    - left. split.
      + unfold n2. assert (Z.log2 m1 + 1 <= 52); [|lia].
        enough (Z.log2 m1 < 52) by lia. apply Z.log2_lt_pow2; lia.
      + pose proof (pow2_lt 52 53 ltac:(lia)). lia. }
  assert (Hn2' : 0 <= n2) by (destruct Hn2 as [[-> _]|[-> _]]; lia).
  destruct (shr_spec m1 fe n2 ltac:(lia) Hn2') as [[Hq2 _] He2].
  destruct (shr _ fe n2) as [mrs2 e2]. cbn [fst snd] in Hq2, He2.
  rewrite Hq2.
  set (R := m1 * 2 ^ (fe + 1074)).
  assert (Hfe0 : 0 <= fe + 1074) by (destruct Hshape as [[? _]|[? _]]; lia).
  pose proof (pow2_pos _ Hfe0) as HA.
  assert (Hval : 0 < m1 / 2 ^ n2 /\ m1 / 2 ^ n2 < 2 ^ 53 /\
                 (m1 / 2 ^ n2) * 2 ^ (e2 + 1074) = R /\
                 (-1074 < e2 -> 2 ^ 52 <= m1 / 2 ^ n2)).
  { destruct Hn2 as [[E Hlt]|[E [Hm Hf]]]; rewrite E in *.
    - rewrite Z.div_1_r. replace e2 with fe by lia. repeat split; try lia; try reflexivity.
      all: intros; destruct Hshape as [[_ ?]|[? _]]; lia.
    - rewrite Hm. change (2 ^ 53 / 2 ^ 1) with (2 ^ 52).
      pose proof (pow2_pos 52 ltac:(lia)). pose proof (pow2_lt 52 53 ltac:(lia)).
      repeat split; try lia.
      unfold R. rewrite Hm. replace (e2 + 1074) with (1 + (fe + 1074)) by lia.
      rewrite pow2_split by lia. change (2 ^ 53) with (2 ^ 52 * 2 ^ 1). lia. }
  destruct Hval as (Hpos & Hlt & HR & Hnorm).
  destruct (m1 / 2 ^ n2) as [|m2|m2] eqn:Em2; try lia.
  change (emax - prec) with 971.
  destruct (Z.leb_spec e2 971) as [Hle|Hgt].
  - split; [discriminate|]. cbn [scaled]. rewrite HR. f_equal.
    assert (R < huge); [|lia].
    rewrite <- HR, huge_53.
    apply mul_lt_bounds; [lia|].
    split; [apply pow2_pos; lia|apply pow2_le; lia].
  - split; [discriminate|]. cbn [scaled]. f_equal.
    assert (huge <= R); [|lia].
    rewrite <- HR, huge_52. specialize (Hnorm ltac:(lia)).
    apply mul_le_bounds; [lia|].
    split; [apply Z.lt_le_incl, pow2_pos; lia|apply pow2_le; lia].
Qed.

Lemma ulp_exp_scaled p e :
  -1074 <= e ->
  ulp_exp (Zpos p * 2 ^ (e + 1074)) = fexp prec emax (Zpos (digits2_pos p) + e) + 1074.
Proof.
  intros He. unfold ulp_exp. rewrite log2_shift by lia. rewrite fexp_eq, Zdigits. lia.
Qed.

(** *** [binary_round] and [binary_normalize] are [rnd] *)

Lemma binary_round_scaled s p e :
  -1074 <= e ->
  binary_round prec emax s p e <> S754_nan /\
  scaled (binary_round prec emax s p e) = cond_Zopp s (rnd_pos (Zpos p * 2 ^ (e + 1074))).
Proof.
  intros He. unfold binary_round.
  set (fe := fexp prec emax (Zpos (digits2_pos p) + e)).
  pose proof (shl_align_spec p e fe) as Hal.
  destruct (shl_align p e fe) as [mz ez]. destruct Hal as [Hez Hmz].
  assert (Hfe_lo : -1074 <= fe) by (unfold fe; rewrite fexp_eq; lia).
  assert (Hd : Zpos (digits2_pos mz) + ez = Zpos (digits2_pos p) + e).
  { rewrite !Zdigits, Hmz, log2_shift by lia. lia. }
  assert (Hfe' : fexp prec emax (Zpos (digits2_pos mz) + ez) = fe) by (rewrite Hd; reflexivity).
  destruct (round_aux_scaled s mz ez ltac:(lia) ltac:(rewrite Hfe'; lia)) as [Hnan Hsc].
  split; [exact Hnan|]. rewrite Hsc, Hfe'. f_equal. unfold rnd_pos.
  rewrite ulp_exp_scaled by assumption. fold fe.
  replace (Zpos p * 2 ^ (e + 1074)) with (Zpos mz * 2 ^ (ez + 1074)).
  - replace (fe + 1074) with ((fe - ez) + (ez + 1074)) at 2 3 by lia.
    rewrite rne_at_shift by lia.
    replace (fe - ez + (ez + 1074)) with (fe + 1074) by lia. reflexivity.
  - rewrite Hmz. rewrite <- Z.mul_assoc, <- pow2_split by lia. f_equal. f_equal. lia.
Qed.

Lemma rnd_pos_0 : rnd_pos 0 = 0.
Proof. reflexivity. Qed.

Lemma binary_normalize_scaled m e sz :
  -1074 <= e ->
  binary_normalize prec emax m e sz <> S754_nan /\
  scaled (binary_normalize prec emax m e sz) = rnd (m * 2 ^ (e + 1074)).
Proof.
  intros He. pose proof (pow2_pos (e + 1074) ltac:(lia)) as Hp.
  unfold binary_normalize, rnd. destruct m as [|p|p].
  - split; [discriminate|]. reflexivity.
  - destruct (binary_round_scaled false p e He) as [Hn Hs]. split; [exact Hn|].
    rewrite Hs. cbn [cond_Zopp].
    rewrite Z.sgn_pos, Z.abs_eq by lia. lia.
  - destruct (binary_round_scaled true p e He) as [Hn Hs]. split; [exact Hn|].
    rewrite Hs. cbn [cond_Zopp].
    rewrite Z.sgn_neg, Z.abs_neq by lia.
    replace (- (Z.neg p * 2 ^ (e + 1074))) with (Z.pos p * 2 ^ (e + 1074)) by lia. lia.
Qed.

(** Validity, unfolded *)
Lemma valid_finite s m e :
  valid_binary (S754_finite s m e) = true ->
  -1074 <= e <= 971 /\ Z.log2 (Zpos m) + 1 <= 53 /\
  (e = -1074 \/ Z.log2 (Zpos m) + 1 = 53).
Proof.
  unfold SpecFloat.valid_binary, bounded, canonical_mantissa.
  rewrite fexp_eq, Zdigits. change (emax - prec) with 971.
  intros H. apply andb_prop in H as [H1 H2].
  apply Z.eqb_eq in H1. apply Z.leb_le in H2. lia.
Qed.

Lemma valid_mantissa_bounds s m e :
  valid_binary (S754_finite s m e) = true ->
  Zpos m < 2 ^ 53 /\ (-1074 < e -> 2 ^ 52 <= Zpos m).
Proof.
  intros (He & Hd & Hc)%valid_finite. split.
  - enough (Z.log2 (Zpos m) < 53) as H by (apply Z.log2_lt_pow2 in H; lia). lia.
  - intros Hlt. assert (Z.log2 (Zpos m) + 1 = 53) as Hd' by lia.
    apply log2_digits in Hd'; [|lia]. replace (53 - 1) with 52 in Hd' by lia. lia.
Qed.

Lemma valid_scaled_bound s m e :
  valid_binary (S754_finite s m e) = true ->
  0 < Zpos m * 2 ^ (e + 1074) < huge.
Proof.
  intros Hv. destruct (valid_finite _ _ _ Hv) as (He & _).
  destruct (valid_mantissa_bounds _ _ _ Hv) as [Hm _].
  pose proof (pow2_pos (e + 1074) ltac:(lia)). split; [lia|].
  rewrite huge_53. apply mul_lt_bounds; [lia|].
  split; [assumption|apply pow2_le; lia].
Qed.

Lemma rnd_pos_valid s m e :
  valid_binary (S754_finite s m e) = true ->
  rnd_pos (Zpos m * 2 ^ (e + 1074)) = Zpos m * 2 ^ (e + 1074).
Proof.
  intros Hv. destruct (valid_finite _ _ _ Hv) as (He & Hd & Hc).
  pose proof (valid_scaled_bound _ _ _ Hv) as Hb.
  unfold rnd_pos. rewrite ulp_exp_scaled by lia.
  assert (fexp prec emax (Zpos (digits2_pos m) + e) = e) as ->.
  { rewrite fexp_eq, Zdigits. lia. }
  pose proof (pow2_pos (e + 1074) ltac:(lia)).
  rewrite rne_at_exact; [|lia|apply Z.mod_mul; lia].
  rewrite Z.div_mul by lia. lia.
Qed.

(** *** Rounding is monotone *)

Lemma rne_at_mono k u v : 0 <= k -> 0 <= u <= v -> rne_at k u <= rne_at k v.
Proof.
  intros Hk Huv. pose proof (pow2_pos k Hk) as Hp.
  pose proof (rne_at_bounds k u Hk ltac:(lia)) as Hbu.
  pose proof (rne_at_bounds k v Hk ltac:(lia)) as Hbv.
  assert (Hq : u / 2 ^ k <= v / 2 ^ k) by (apply Z.div_le_mono; lia).
  destruct (Z.eq_dec (u / 2 ^ k) (v / 2 ^ k)) as [E|E]; [|lia].
  assert (Hr : u mod 2 ^ k <= v mod 2 ^ k).
  { pose proof (Z.div_mod u (2 ^ k) ltac:(lia)). pose proof (Z.div_mod v (2 ^ k) ltac:(lia)). nia. }
  unfold rne_at in *. rewrite <- E in *.
  destruct (Z.compare_spec (2 * (u mod 2 ^ k)) (2 ^ k));
    destruct (Z.compare_spec (2 * (v mod 2 ^ k)) (2 ^ k));
    destruct (Z.even (u / 2 ^ k)); lia.
Qed.

Lemma ulp_exp_nonneg v : 0 <= ulp_exp v.
Proof. unfold ulp_exp. lia. Qed.

Lemma ulp_exp_mono u v : 0 <= u <= v -> ulp_exp u <= ulp_exp v.
Proof. intros. unfold ulp_exp. pose proof (Z.log2_le_mono u v ltac:(lia)). lia. Qed.

Lemma ulp_exp_upper v : 0 <= v -> v < 2 ^ (ulp_exp v + 53).
Proof.
  intros Hv. destruct (Z.eq_dec v 0) as [->|Hne].
  - apply pow2_pos. pose proof (ulp_exp_nonneg 0). lia.
  - destruct (Z.log2_spec v ltac:(lia)) as [_ Hu]. unfold Z.succ in Hu.
    pose proof (Z.log2_nonneg v).
    pose proof (pow2_le (Z.log2 v + 1) (ulp_exp v + 53) ltac:(unfold ulp_exp; lia)). lia.
Qed.

Lemma ulp_exp_lower v : 0 < ulp_exp v -> 2 ^ (ulp_exp v + 52) <= v.
Proof.
  intros Hk. assert (ulp_exp v = Z.log2 v + 1 - 53) as E by (unfold ulp_exp in *; lia).
  rewrite E. replace (Z.log2 v + 1 - 53 + 52) with (Z.log2 v) by lia.
  assert (0 < v).
  { destruct (Z.lt_trichotomy v 0) as [H|[H|H]]; [|subst; simpl in E; unfold ulp_exp in Hk; simpl in Hk; lia|assumption].
    rewrite Z.log2_nonpos in E by lia. lia. }
  apply Z.log2_spec. assumption.
Qed.

Lemma grid_mono u v : 0 <= u <= v -> grid u <= grid v.
Proof.
  intros Huv. unfold grid.
  pose proof (ulp_exp_mono u v Huv) as Hk.
  pose proof (ulp_exp_nonneg u) as Hku. pose proof (ulp_exp_nonneg v) as Hkv.
  pose proof (pow2_pos _ Hku) as Hpu. pose proof (pow2_pos _ Hkv) as Hpv.
  destruct (Z.eq_dec (ulp_exp u) (ulp_exp v)) as [E|E].
  - rewrite E. pose proof (rne_at_mono (ulp_exp v) u v Hkv Huv). nia.
  - assert (Hlt : ulp_exp u + 1 <= ulp_exp v) by lia.
    pose proof (ulp_exp_upper u ltac:(lia)) as Hu.
    pose proof (ulp_exp_lower v ltac:(lia)) as Hv.
    rewrite (Z.add_comm _ 53), pow2_split in Hu by lia.
    rewrite (Z.add_comm _ 52), pow2_split in Hv by lia.
    pose proof (rne_at_bounds (ulp_exp u) u Hku ltac:(lia)) as Hbu.
    pose proof (rne_at_bounds (ulp_exp v) v Hkv ltac:(lia)) as Hbv.
    assert (u / 2 ^ ulp_exp u < 2 ^ 53) by (apply Z.div_lt_upper_bound; lia).
    assert (2 ^ 52 <= v / 2 ^ ulp_exp v) by (apply Z.div_le_lower_bound; lia).
    pose proof (pow2_le (ulp_exp u + 1) (ulp_exp v) ltac:(lia)) as Hpp.
    rewrite pow2_split in Hpp by lia. change (2 ^ 1) with 2 in Hpp.
    pose proof (pow2_pos 52 ltac:(lia)).
    assert (2 ^ 53 = 2 * 2 ^ 52) as E53 by reflexivity.
    transitivity (2 ^ 53 * 2 ^ ulp_exp u); [nia|].
    transitivity (2 ^ 52 * 2 ^ ulp_exp v); [nia|nia].
Qed.

Lemma grid_nonneg v : 0 <= v -> 0 <= grid v.
Proof.
  intros. unfold grid. pose proof (ulp_exp_nonneg v) as Hk. pose proof (pow2_pos _ Hk).
  pose proof (rne_at_bounds _ v Hk H). pose proof (Z.div_pos v (2 ^ ulp_exp v) H ltac:(lia)). nia.
Qed.

Lemma rnd_pos_mono u v : 0 <= u <= v -> rnd_pos u <= rnd_pos v.
Proof. intros. unfold rnd_pos. fold (grid u) (grid v). pose proof (grid_mono u v H). lia. Qed.

Lemma rnd_pos_nonneg v : 0 <= v -> 0 <= rnd_pos v.
Proof.
  intros. unfold rnd_pos. fold (grid v). pose proof (grid_nonneg v H).
  pose proof huge_pos. lia.
Qed.

Lemma rnd_mono u v : u <= v -> rnd u <= rnd v.
Proof.
  intros Huv. unfold rnd.
  pose proof (rnd_pos_nonneg (Z.abs u) (Z.abs_nonneg u)).
  pose proof (rnd_pos_nonneg (Z.abs v) (Z.abs_nonneg v)).
  destruct (Z.sgn_spec u) as [[? ->]|[[? ->]|[? ->]]];
  destruct (Z.sgn_spec v) as [[? ->]|[[? ->]|[? ->]]]; try lia.
  - pose proof (rnd_pos_mono (Z.abs u) (Z.abs v) ltac:(lia)). lia.
  - pose proof (rnd_pos_mono (Z.abs v) (Z.abs u) ltac:(lia)). lia.
Qed.

Lemma rnd_bound v : - huge <= rnd v <= huge.
Proof.
  unfold rnd. pose proof (rnd_pos_nonneg (Z.abs v) (Z.abs_nonneg v)).
  assert (rnd_pos (Z.abs v) <= huge) by (unfold rnd_pos; lia).
  destruct (Z.sgn_spec v) as [[? ->]|[[? ->]|[? ->]]]; lia.
Qed.

(** *** Comparison *)
Lemma scaled_lt_exp s1 m1 e1 s2 m2 e2 :
  valid_binary (S754_finite s1 m1 e1) = true ->
  valid_binary (S754_finite s2 m2 e2) = true ->
  e1 < e2 -> Zpos m1 * 2 ^ (e1 + 1074) < Zpos m2 * 2 ^ (e2 + 1074).
Proof.
  intros H1 H2 Hlt.
  destruct (valid_finite _ _ _ H1) as (He1 & _). destruct (valid_finite _ _ _ H2) as (He2 & _).
  destruct (valid_mantissa_bounds _ _ _ H1) as [Hm1 _].
  destruct (valid_mantissa_bounds _ _ _ H2) as [_ Hm2]. specialize (Hm2 ltac:(lia)).
  pose proof (pow2_pos (e1 + 1074) ltac:(lia)).
  pose proof (pow2_le (e1 + 1 + 1074) (e2 + 1074) ltac:(lia)) as Hp.
  replace (e1 + 1 + 1074) with (1 + (e1 + 1074)) in Hp by lia.
  rewrite pow2_split in Hp by lia. change (2 ^ 1) with 2 in Hp.
  assert (2 ^ 53 = 2 * 2 ^ 52) as E53 by reflexivity.
  pose proof (pow2_pos 52 ltac:(lia)).
  apply Z.lt_le_trans with (2 ^ 52 * 2 ^ (e2 + 1074)); nia.
Qed.

Lemma SFcompare_scaled x y :
  valid_binary x = true -> valid_binary y = true ->
  is_nan_sf x = false -> is_nan_sf y = false ->
  SFcompare x y = Some (scaled x ?= scaled y).
Proof.
  intros Hx Hy Nx Ny.
  pose proof huge_pos as HI.
  destruct x as [sx|sx| |sx mx ex], y as [sy|sy| |sy my ey]; try discriminate;
    try pose proof (valid_scaled_bound _ _ _ Hx) as Bx;
    try pose proof (valid_scaled_bound _ _ _ Hy) as By;
    cbn [SFcompare scaled].
  - reflexivity.
  - f_equal. symmetry. destruct sy; cbn [cond_Zopp];
      [apply Z.compare_gt_iff|apply Z.compare_lt_iff]; lia.
  - f_equal. symmetry. destruct sy; cbn [cond_Zopp];
      [apply Z.compare_gt_iff|apply Z.compare_lt_iff]; lia.
  - f_equal. symmetry. destruct sx; cbn [cond_Zopp];
      [apply Z.compare_lt_iff|apply Z.compare_gt_iff]; lia.
  - f_equal. symmetry. destruct sx, sy; cbn [cond_Zopp];
      first [apply Z.compare_eq_iff; lia|apply Z.compare_lt_iff; lia|apply Z.compare_gt_iff; lia].
  - f_equal. symmetry. destruct sx, sy; cbn [cond_Zopp];
      first [apply Z.compare_lt_iff; lia|apply Z.compare_gt_iff; lia].
  - f_equal. symmetry. destruct sx; cbn [cond_Zopp];
      [apply Z.compare_lt_iff|apply Z.compare_gt_iff]; lia.
  - f_equal. symmetry. destruct sx, sy; cbn [cond_Zopp];
      first [apply Z.compare_lt_iff; lia|apply Z.compare_gt_iff; lia].
  - f_equal. destruct sx, sy; cbn [cond_Zopp].
    + destruct (Z.compare_spec ex ey) as [E|E|E].
      * subst ey. rewrite Pos.compare_cont_spec. cbn [Pos.switch_Eq].
        destruct (valid_finite _ _ _ Hx) as (He & _).
        pose proof (pow2_pos (ex + 1074) ltac:(lia)).
        change (mx ?= my)%positive with (Zpos mx ?= Zpos my).
        destruct (Z.compare_spec (Zpos mx) (Zpos my)); cbn [CompOpp]; symmetry;
          [apply Z.compare_eq_iff|apply Z.compare_gt_iff|apply Z.compare_lt_iff]; nia.
      * pose proof (scaled_lt_exp _ _ _ _ _ _ Hx Hy E). symmetry. apply Z.compare_gt_iff. lia.
      * pose proof (scaled_lt_exp _ _ _ _ _ _ Hy Hx E). symmetry. apply Z.compare_lt_iff. lia.
    + symmetry. apply Z.compare_lt_iff. lia.
    + symmetry. apply Z.compare_gt_iff. lia.
    + destruct (Z.compare_spec ex ey) as [E|E|E].
      * subst ey. rewrite Pos.compare_cont_spec. cbn [Pos.switch_Eq].
        destruct (valid_finite _ _ _ Hx) as (He & _).
        pose proof (pow2_pos (ex + 1074) ltac:(lia)).
        change (mx ?= my)%positive with (Zpos mx ?= Zpos my).
        destruct (Z.compare_spec (Zpos mx) (Zpos my)); symmetry;
          [apply Z.compare_eq_iff|apply Z.compare_lt_iff|apply Z.compare_gt_iff]; nia.
      * pose proof (scaled_lt_exp _ _ _ _ _ _ Hx Hy E). symmetry. apply Z.compare_lt_iff. lia.
      * pose proof (scaled_lt_exp _ _ _ _ _ _ Hy Hx E). symmetry. apply Z.compare_gt_iff. lia.
Qed.

(** Two valid numbers with the same nonzero scaled value are the same. *)
Lemma scaled_inj x y :
  valid_binary x = true -> valid_binary y = true ->
  is_nan_sf x = false -> is_nan_sf y = false ->
  scaled x = scaled y -> scaled x <> 0 -> x = y.
Proof.
  intros Hx Hy Nx Ny E Hnz.
  pose proof (SFcompare_scaled x y Hx Hy Nx Ny) as Hc.
  rewrite E, Z.compare_refl in Hc.
  destruct x as [sx|sx| |sx mx ex], y as [sy|sy| |sy my ey]; try discriminate;
    cbn [scaled] in Hnz; try lia; cbn [SFcompare] in Hc;
    destruct sx, sy; try discriminate; try reflexivity.
  - destruct (Z.compare_spec ex ey); try discriminate. subst ey.
    rewrite Pos.compare_cont_spec in Hc. cbn [Pos.switch_Eq] in Hc.
    destruct (Pos.compare_spec mx my); try discriminate. congruence.
  - destruct (Z.compare_spec ex ey); try discriminate. subst ey.
    rewrite Pos.compare_cont_spec in Hc. cbn [Pos.switch_Eq] in Hc.
    destruct (Pos.compare_spec mx my); try discriminate. congruence.
Qed.

(** *** Addition and subtraction of finite numbers *)

Lemma rnd_0 : rnd 0 = 0.
Proof. reflexivity. Qed.

Lemma rnd_opp v : rnd (- v) = - rnd v.
Proof. unfold rnd. rewrite Z.sgn_opp, Z.abs_opp. lia. Qed.

Lemma rnd_valid x :
  valid_binary x = true -> finite_sf x = true -> rnd (scaled x) = scaled x.
Proof.
  intros Hv Hf. destruct x as [s|s| |s m e]; try discriminate; [reflexivity|].
  cbn [scaled]. pose proof (valid_scaled_bound _ _ _ Hv) as Hb.
  pose proof (rnd_pos_valid _ _ _ Hv) as Hr.
  unfold rnd. destruct s; cbn [cond_Zopp].
  - rewrite Z.sgn_neg, Z.abs_neq, Z.opp_involutive, Hr by lia. lia.
  - rewrite Z.sgn_pos, Z.abs_eq, Hr by lia. lia.
Qed.

Lemma aligned_scaled s m e ez :
  -1074 <= ez -> ez <= e ->
  cond_Zopp s (Zpos (fst (shl_align m e ez))) * 2 ^ (ez + 1074) =
  scaled (S754_finite s m e).
Proof.
  intros H1 H2. pose proof (shl_align_spec m e ez) as Ha.
  destruct (shl_align m e ez) as [mz ez']. destruct Ha as [-> Hm]. cbn [fst scaled].
  rewrite Hm. replace (Z.min e ez) with ez by lia.
  replace (e + 1074) with ((e - ez) + (ez + 1074)) by lia.
  rewrite (pow2_split (e - ez) (ez + 1074)) by lia. destruct s; cbn [cond_Zopp]; lia.
Qed.

Lemma SFadd_scaled x y :
  valid_binary x = true -> valid_binary y = true ->
  finite_sf x = true -> finite_sf y = true ->
  is_nan_sf (SFadd prec emax x y) = false /\
  scaled (SFadd prec emax x y) = rnd (scaled x + scaled y).
Proof.
  intros Hx Hy Fx Fy.
  destruct x as [sx|sx| |sx mx ex], y as [sy|sy| |sy my ey]; try discriminate.
  - cbn [SFadd]. destruct sx, sy; split; reflexivity.
  - cbn [SFadd]. split; [reflexivity|]. rewrite Z.add_0_l. symmetry. apply rnd_valid; assumption.
  - cbn [SFadd]. split; [reflexivity|]. change (scaled (S754_zero sy)) with 0.
    rewrite Z.add_0_r. symmetry. apply rnd_valid; assumption.
  - cbn [SFadd].
    destruct (valid_finite _ _ _ Hx) as (Hex & _). destruct (valid_finite _ _ _ Hy) as (Hey & _).
    set (ez := Z.min ex ey).
    destruct (binary_normalize_scaled
      (cond_Zopp sx (Zpos (fst (shl_align mx ex ez))) + cond_Zopp sy (Zpos (fst (shl_align my ey ez))))
      ez false ltac:(unfold ez; lia)) as [Hn Hs].
    split.
    + destruct (binary_normalize _ _ _ _ _); try reflexivity. congruence.
    + rewrite Hs. f_equal. rewrite Z.mul_add_distr_r.
      rewrite !aligned_scaled by (unfold ez; lia). reflexivity.
Qed.

Lemma SFsub_scaled x y :
  valid_binary x = true -> valid_binary y = true ->
  finite_sf x = true -> finite_sf y = true ->
  is_nan_sf (SFsub prec emax x y) = false /\
  scaled (SFsub prec emax x y) = rnd (scaled x - scaled y).
Proof.
  intros Hx Hy Fx Fy.
  destruct x as [sx|sx| |sx mx ex], y as [sy|sy| |sy my ey]; try discriminate.
  - cbn [SFsub]. destruct sx, sy; split; reflexivity.
  - cbn [SFsub]. split; [reflexivity|]. rewrite Z.sub_0_l, rnd_opp.
    rewrite (rnd_valid _ Hy Fy). cbn [scaled]. destruct sy; cbn [cond_Zopp negb]; lia.
  - cbn [SFsub]. split; [reflexivity|]. change (scaled (S754_zero sy)) with 0.
    rewrite Z.sub_0_r. symmetry. apply rnd_valid; assumption.
  - cbn [SFsub].
    destruct (valid_finite _ _ _ Hx) as (Hex & _). destruct (valid_finite _ _ _ Hy) as (Hey & _).
    set (ez := Z.min ex ey).
    destruct (binary_normalize_scaled
      (cond_Zopp sx (Zpos (fst (shl_align mx ex ez))) - cond_Zopp sy (Zpos (fst (shl_align my ey ez))))
      ez false ltac:(unfold ez; lia)) as [Hn Hs].
    split.
    + destruct (binary_normalize _ _ _ _ _); try reflexivity. congruence.
    + rewrite Hs. f_equal. rewrite Z.mul_sub_distr_r.
      rewrite !aligned_scaled by (unfold ez; lia). reflexivity.
Qed.

(** *** Primitive floats *)

Lemma sc_bound x : - huge <= sc x <= huge.
Proof.
  unfold sc. pose proof (Prim2SF_valid x) as Hv. pose proof huge_pos as Ht.
  destruct (Prim2SF x) as [s|s| |s m e]; cbn [scaled]; try lia.
  - destruct s; cbn [cond_Zopp]; lia.
  - pose proof (valid_scaled_bound _ _ _ Hv). destruct s; cbn [cond_Zopp]; lia.
Qed.

Lemma finb_sc x : finb x = true -> Z.abs (sc x) < huge.
Proof.
  unfold finb, sc. pose proof (Prim2SF_valid x) as Hv. pose proof huge_pos as Ht.
  destruct (Prim2SF x) as [s|s| |s m e]; cbn [scaled finite_sf]; try discriminate; intros _; try lia.
  pose proof (valid_scaled_bound _ _ _ Hv). destruct s; cbn [cond_Zopp]; lia.
Qed.

Lemma inf_sc x : nanb x = false -> finb x = false -> Z.abs (sc x) = huge.
Proof.
  unfold nanb, finb, sc. pose proof huge_pos as Ht.
  destruct (Prim2SF x) as [s|s| |s m e]; cbn [scaled finite_sf is_nan_sf]; try discriminate; intros _ _.
  destruct s; cbn [cond_Zopp]; lia.
Qed.

Lemma leb_sc x y :
  (x <=? y)%float = negb (nanb x) && negb (nanb y) && (sc x <=? sc y).
Proof.
  rewrite leb_spec. unfold SFleb, nanb, sc.
  pose proof (Prim2SF_valid x) as Hx. pose proof (Prim2SF_valid y) as Hy.
  destruct (is_nan_sf (Prim2SF x)) eqn:Nx.
  { destruct (Prim2SF x); try discriminate. reflexivity. }
  destruct (is_nan_sf (Prim2SF y)) eqn:Ny.
  { destruct (Prim2SF y); try discriminate. destruct (Prim2SF x); reflexivity. }
  rewrite (SFcompare_scaled _ _ Hx Hy Nx Ny). cbn [negb andb].
  unfold Z.leb. destruct (_ ?= _); reflexivity.
Qed.

Lemma ltb_sc x y :
  (x <? y)%float = negb (nanb x) && negb (nanb y) && (sc x <? sc y).
Proof.
  rewrite ltb_spec. unfold SFltb, nanb, sc.
  pose proof (Prim2SF_valid x) as Hx. pose proof (Prim2SF_valid y) as Hy.
  destruct (is_nan_sf (Prim2SF x)) eqn:Nx.
  { destruct (Prim2SF x); try discriminate. reflexivity. }
  destruct (is_nan_sf (Prim2SF y)) eqn:Ny.
  { destruct (Prim2SF y); try discriminate. destruct (Prim2SF x); reflexivity. }
  rewrite (SFcompare_scaled _ _ Hx Hy Nx Ny). cbn [negb andb].
  unfold Z.ltb. destruct (_ ?= _); reflexivity.
Qed.

Lemma sc_inj x y :
  nanb x = false -> nanb y = false -> sc x = sc y -> sc x <> 0 -> x = y.
Proof.
  intros Nx Ny E Hnz. apply Prim2SF_inj.
  apply scaled_inj; auto using Prim2SF_valid.
Qed.

Lemma add_sc x c :
  nanb x = false -> finb c = true ->
  nanb (x + c) = false /\ sc (x + c) = shiftF (sc c) (sc x).
Proof.
  intros Nx Fc. unfold nanb, sc, shiftF in *. rewrite add_spec. unfold SF64add.
  pose proof (Prim2SF_valid x) as Hx. pose proof (Prim2SF_valid c) as Hc.
  pose proof (finb_sc c Fc) as Hcb. unfold finb, sc in *.
  destruct (finite_sf (Prim2SF x)) eqn:Fx.
  - pose proof (finb_sc x Fx) as Hxb. unfold sc in Hxb.
    destruct (Z.eqb_spec (Z.abs (scaled (Prim2SF x))) huge); [lia|].
    apply SFadd_scaled; assumption.
  - pose proof (inf_sc x Nx Fx) as Hxb. unfold sc in Hxb. rewrite Hxb, Z.eqb_refl.
    destruct (Prim2SF x) as [s|s| |s m e]; try discriminate.
    destruct (Prim2SF c) as [s'|s'| |s' m' e']; try discriminate; split; reflexivity.
Qed.

Lemma sub_sc x c :
  nanb x = false -> finb c = true ->
  nanb (x - c) = false /\ sc (x - c) = shiftF (- sc c) (sc x).
Proof.
  intros Nx Fc. unfold nanb, sc, shiftF in *. rewrite sub_spec. unfold SF64sub.
  pose proof (Prim2SF_valid x) as Hx. pose proof (Prim2SF_valid c) as Hc.
  pose proof (finb_sc c Fc) as Hcb. unfold finb, sc in *.
  destruct (finite_sf (Prim2SF x)) eqn:Fx.
  - pose proof (finb_sc x Fx) as Hxb. unfold sc in Hxb.
    destruct (Z.eqb_spec (Z.abs (scaled (Prim2SF x))) huge); [lia|].
    rewrite Z.add_opp_r. apply SFsub_scaled; assumption.
  - pose proof (inf_sc x Nx Fx) as Hxb. unfold sc in Hxb. rewrite Hxb, Z.eqb_refl.
    destruct (Prim2SF x) as [s|s| |s m e]; try discriminate.
    destruct (Prim2SF c) as [s'|s'| |s' m' e']; try discriminate; split; reflexivity.
Qed.

Lemma add_nan x c : nanb x = true -> nanb (x + c) = true.
Proof.
  unfold nanb. rewrite add_spec. unfold SF64add.
  destruct (Prim2SF x); try discriminate. reflexivity.
Qed.

Lemma sub_nan x c : nanb x = true -> nanb (x - c) = true.
Proof.
  unfold nanb. rewrite sub_spec. unfold SF64sub.
  destruct (Prim2SF x); try discriminate. reflexivity.
Qed.

Lemma shiftF_mono d u v :
  - huge <= u -> v <= huge -> u <= v -> shiftF d u <= shiftF d v.
Proof.
  intros Hu Hv Huv. unfold shiftF. pose proof huge_pos.
  pose proof (rnd_bound (u + d)) as Bu. pose proof (rnd_bound (v + d)) as Bv.
  destruct (Z.eqb_spec (Z.abs u) huge); destruct (Z.eqb_spec (Z.abs v) huge); try lia.
  apply rnd_mono. lia.
Qed.

Lemma rnd_sc x : finb x = true -> rnd (sc x) = sc x.
Proof. intros. apply rnd_valid; [apply Prim2SF_valid|assumption]. Qed.

(** Adding a nonnegative constant does not decrease; a nonpositive one
    does not increase. *)
Lemma shiftF_up d x : nanb x = false -> 0 <= d -> sc x <= shiftF d (sc x).
Proof.
  intros Nx Hd. unfold shiftF. destruct (Z.eqb_spec (Z.abs (sc x)) huge); [lia|].
  destruct (finb x) eqn:Fx.
  - rewrite <- (rnd_sc x Fx) at 1. apply rnd_mono. lia.
  - pose proof (inf_sc x Nx Fx). lia.
Qed.

Lemma shiftF_down d x : nanb x = false -> d <= 0 -> shiftF d (sc x) <= sc x.
Proof.
  intros Nx Hd. unfold shiftF. destruct (Z.eqb_spec (Z.abs (sc x)) huge); [lia|].
  destruct (finb x) eqn:Fx.
  - rewrite <- (rnd_sc x Fx) at 2. apply rnd_mono. lia.
  - pose proof (inf_sc x Nx Fx). lia.
Qed.

Lemma shiftF_zero d x : finb x = true -> sc x = 0 -> shiftF d 0 = rnd d.
Proof. intros. unfold shiftF. pose proof huge_pos. destruct (Z.eqb_spec (Z.abs 0) huge); [rewrite Z.abs_0 in *; lia|reflexivity]. Qed.

Lemma one_facts : nanb 1 = false /\ finb 1 = true /\ 0 < sc 1.
Proof. repeat split; vm_compute; reflexivity. Qed.

Lemma mone_facts : nanb (-1) = false /\ finb (-1) = true /\ sc (-1) < 0.
Proof. repeat split; vm_compute; reflexivity. Qed.

(** *** The two clamps *)

Lemma amp_cases c x :
  finb c = true ->
  (amp c x = 1%float /\ (nanb x = true \/ sc 1 <= sc (x + c))) \/
  (amp c x = (x + c)%float /\ nanb x = false /\ nanb (x + c) = false /\
   sc (x + c) = shiftF (sc c) (sc x) /\ sc (x + c) < sc 1).
Proof.
  intros Fc. unfold amp, py_min. rewrite ltb_sc.
  destruct one_facts as (N1 & _ & _). rewrite N1.
  destruct (nanb x) eqn:Nx.
  - rewrite (add_nan x c Nx). left. auto.
  - destruct (add_sc x c Nx Fc) as [Ny Hy]. rewrite Ny. cbn [negb andb].
    destruct (Z.ltb_spec (sc (x + c)) (sc 1)); [right|left]; auto.
Qed.

Lemma damp_cases c x :
  finb c = true ->
  (damp c x = (-1)%float /\ (nanb x = true \/ sc (x - c) <= sc (-1))) \/
  (damp c x = (x - c)%float /\ nanb x = false /\ nanb (x - c) = false /\
   sc (x - c) = shiftF (- sc c) (sc x) /\ sc (-1) < sc (x - c)).
Proof.
  intros Fc. unfold damp, py_max. rewrite ltb_sc.
  destruct mone_facts as (N1 & _ & _). rewrite N1.
  destruct (nanb x) eqn:Nx.
  - rewrite (sub_nan x c Nx). left. cbn. auto.
  - destruct (sub_sc x c Nx Fc) as [Ny Hy]. rewrite Ny. cbn [negb andb].
    destruct (Z.ltb_spec (sc (-1)) (sc (x - c))); [right|left]; auto.
Qed.

Lemma amp_nan c x : finb c = true -> nanb (amp c x) = false.
Proof.
  intros Fc. destruct (amp_cases c x Fc) as [[-> _]|(-> & _ & N & _)]; [apply one_facts|exact N].
Qed.

Lemma damp_nan c x : finb c = true -> nanb (damp c x) = false.
Proof.
  intros Fc. destruct (damp_cases c x Fc) as [[-> _]|(-> & _ & N & _)]; [apply mone_facts|exact N].
Qed.

(** The clamps, in one direction each, for every input. *)
Lemma py_min_le a b : nanb a = false -> (py_min a b <=? a)%float = true.
Proof.
  intros Na. unfold py_min. destruct (b <? a)%float eqn:E.
  - rewrite ltb_sc in E. rewrite leb_sc. 
    destruct (nanb b), (nanb a); try discriminate. cbn in *.
    apply Z.ltb_lt in E. apply Z.leb_le. lia.
  - rewrite leb_sc, Na. cbn. apply Z.leb_refl.
Qed.

Lemma py_max_ge a b : nanb a = false -> (a <=? py_max a b)%float = true.
Proof.
  intros Na. unfold py_max. destruct (a <? b)%float eqn:E.
  - rewrite ltb_sc in E. rewrite leb_sc. 
    destruct (nanb b), (nanb a); try discriminate. cbn in *.
    apply Z.ltb_lt in E. apply Z.leb_le. lia.
  - rewrite leb_sc, Na. cbn. apply Z.leb_refl.
Qed.

Lemma leb_iff x y :
  (x <=? y)%float = true <-> nanb x = false /\ nanb y = false /\ sc x <= sc y.
Proof.
  rewrite leb_sc. destruct (nanb x), (nanb y); cbn; rewrite ?Z.leb_le; intuition congruence.
Qed.

Lemma amp_sc c x :
  finb c = true -> nanb x = false -> sc (amp c x) = Z.min (shiftF (sc c) (sc x)) (sc 1).
Proof.
  intros Fc Nx. destruct (amp_cases c x Fc) as [[-> [N|H]]|(-> & _ & _ & H & Hlt)].
  - congruence.
  - destruct (add_sc x c Nx Fc) as [_ <-]. lia.
  - lia.
Qed.

Lemma damp_sc c x :
  finb c = true -> nanb x = false -> sc (damp c x) = Z.max (shiftF (- sc c) (sc x)) (sc (-1)).
Proof.
  intros Fc Nx. destruct (damp_cases c x Fc) as [[-> [N|H]]|(-> & _ & _ & H & Hlt)].
  - congruence.
  - destruct (sub_sc x c Nx Fc) as [_ <-]. lia.
  - lia.
Qed.

Lemma amp_mono c x y :
  finb c = true -> (x <=? y)%float = true -> (amp c x <=? amp c y)%float = true.
Proof.
  intros Fc (Nx & Ny & Hxy)%leb_iff. apply leb_iff.
  repeat split; try apply amp_nan; try assumption.
  rewrite !amp_sc by assumption.
  pose proof (shiftF_mono (sc c) (sc x) (sc y) ltac:(apply sc_bound) ltac:(apply sc_bound) Hxy). lia.
Qed.

Lemma damp_mono c x y :
  finb c = true -> (x <=? y)%float = true -> (damp c x <=? damp c y)%float = true.
Proof.
  intros Fc (Nx & Ny & Hxy)%leb_iff. apply leb_iff.
  repeat split; try apply damp_nan; try assumption.
  rewrite !damp_sc by assumption.
  pose proof (shiftF_mono (- sc c) (sc x) (sc y) ltac:(apply sc_bound) ltac:(apply sc_bound) Hxy). lia.
Qed.

Lemma leb_antisym x y :
  (x <=? y)%float = true -> (y <=? x)%float = true -> sc x <> 0 -> x = y.
Proof.
  intros (Nx & Ny & H1)%leb_iff (_ & _ & H2)%leb_iff Hnz. apply sc_inj; auto. lia.
Qed.

Lemma leb_trans x y z :
  (x <=? y)%float = true -> (y <=? z)%float = true -> (x <=? z)%float = true.
Proof.
  intros (Nx & Ny & H1)%leb_iff (_ & Nz & H2)%leb_iff. apply leb_iff. repeat split; auto. lia.
Qed.

(** *** Convergence of a clamped shift

    A step that either jumps to its limit or moves a number in one
    direction on the finite grid of the floats becomes stationary. *)
Lemma clamp_converges (h : float -> float) (lim : float) (sg : Z) :
  sg = 1 \/ sg = -1 ->
  h lim = lim ->
  (forall x, h x = lim \/
     (nanb x = false /\ nanb (h x) = false /\ sg * sc x <= sg * sc (h x) /\
      (sc (h x) = sc x -> h x = x))) ->
  forall x, exists n, h (Nat.iter n h x) = Nat.iter n h x.
Proof.
  intros Hsg Hlim Hstep.
  assert (Hmain : forall (k : nat) x, nanb x = false ->
            (Z.to_nat (huge - sg * sc x) <= k)%nat ->
            exists n, h (Nat.iter n h x) = Nat.iter n h x).
  { induction k as [|k IH]; intros x Nx Hk.
    - destruct (Hstep x) as [E|(_ & Ny & Hle & Heq)].
      + exists 1%nat. simpl. rewrite E. exact Hlim.
      + exists 0%nat. simpl. apply Heq.
        pose proof (sc_bound x). pose proof (sc_bound (h x)). lia.
    - destruct (Hstep x) as [E|(_ & Ny & Hle & Heq)].
      + exists 1%nat. simpl. rewrite E. exact Hlim.
      + destruct (Z.eq_dec (sc (h x)) (sc x)) as [E|E].
        * exists 0%nat. simpl. auto.
        * destruct (IH (h x) Ny) as [n Hn].
          { pose proof (sc_bound x). pose proof (sc_bound (h x)). lia. }
          exists (S n). rewrite Nat.iter_succ_r. exact Hn. }
  intros x. destruct (Hstep x) as [E|(Nx & _)].
  - exists 1%nat. simpl. rewrite E. exact Hlim.
  - apply (Hmain _ x Nx (Nat.le_refl _)).
Qed.

Lemma amp_one c : finb c = true -> 0 <= sc c -> amp c 1 = 1%float.
Proof.
  intros Fc Hc. destruct one_facts as (N1 & F1 & P1).
  destruct (amp_cases c 1 Fc) as [[E _]|(_ & _ & _ & H & Hlt)]; [exact E|].
  pose proof (shiftF_up (sc c) 1 N1 Hc). lia.
Qed.

Lemma damp_mone c : finb c = true -> 0 <= sc c -> damp c (-1) = (-1)%float.
Proof.
  intros Fc Hc. destruct mone_facts as (N1 & F1 & P1).
  destruct (damp_cases c (-1) Fc) as [[E _]|(_ & _ & _ & H & Hlt)]; [exact E|].
  pose proof (shiftF_down (- sc c) (-1) N1 ltac:(lia)). lia.
Qed.

Lemma amp_converges c x :
  finb c = true -> 0 < sc c ->
  exists n, amp c (Nat.iter n (amp c) x) = Nat.iter n (amp c) x.
Proof.
  intros Fc Hc. apply (clamp_converges (amp c) 1 1); [auto|apply amp_one; [assumption|lia]|].
  clear x. intros x.
  destruct (amp_cases c x Fc) as [[E _]|(E & Nx & Ny & H & Hlt)]; [left; exact E|right].
  rewrite E. repeat split; try assumption.
  - rewrite H. pose proof (shiftF_up (sc c) x Nx ltac:(lia)). lia.
  - intros Heq. destruct (Z.eq_dec (sc x) 0) as [Z0|NZ].
    + exfalso. rewrite H, Z0 in Heq.
      assert (finb x = true) as Fx.
      { destruct (finb x) eqn:F; [reflexivity|]. pose proof (inf_sc x Nx F). pose proof huge_pos. lia. }
      rewrite (shiftF_zero _ x Fx Z0), (rnd_sc c Fc) in Heq. lia.
    + symmetry. apply sc_inj; auto.
Qed.

Lemma damp_converges c x :
  finb c = true -> 0 < sc c ->
  exists n, damp c (Nat.iter n (damp c) x) = Nat.iter n (damp c) x.
Proof.
  intros Fc Hc. apply (clamp_converges (damp c) (-1) (-1)); [auto|apply damp_mone; [assumption|lia]|].
  clear x. intros x.
  destruct (damp_cases c x Fc) as [[E _]|(E & Nx & Ny & H & Hlt)]; [left; exact E|right].
  rewrite E. repeat split; try assumption.
  - rewrite H. pose proof (shiftF_down (- sc c) x Nx ltac:(lia)). lia.
  - intros Heq. destruct (Z.eq_dec (sc x) 0) as [Z0|NZ].
    + exfalso. rewrite H, Z0 in Heq.
      assert (finb x = true) as Fx.
      { destruct (finb x) eqn:F; [reflexivity|]. pose proof (inf_sc x Nx F). pose proof huge_pos. lia. }
      rewrite (shiftF_zero _ x Fx Z0), rnd_opp, (rnd_sc c Fc) in Heq. lia.
    + symmetry. apply sc_inj; auto.
Qed.
(** ** Running the monad *)

(** The equation of [≫=], for rewriting a run one statement at a time. *)
Lemma bind_run {S A B} (c : M S A) (k : A → M S B) s :
  (c ≫= k) s = match c s with (inl e, s') => (inl e, s') | (inr a, s') => k a s' end.
Proof. reflexivity. Qed.

(** One amplifying statement, [values[k] = min(1.0, values.get(k, 0) + c)],
    followed by the rest of the body. *)
Lemma amplify_step {A} values k c (rest : M heap A) h :
  (v ← dict_get values k (mret (PInt 0)); x ← py_add v c;
   setitem values k (PFloat (py_min 1.0 x));; rest) h =
  match deref h values with
  | Some vd =>
      match operand (vd !! k) with
      | inr x =>
          match values with
          | PDict lv => rest (<[lv := <[k := PFloat (py_min 1.0 (x + c))]> vd]> h)
          | _ => (inl TypeError, h)
          end
      | inl e => (inl e, h)
      end
  | None => (inl AttributeError, h)
  end.
Proof.
  rewrite bind_run. unfold dict_get, operand.
  destruct (deref h values) as [vd|] eqn:Hd; [|done].
  assert (Hstep : ∀ v, (x ← py_add v c; setitem values k (PFloat (py_min 1.0 x));; rest) h =
    match as_float v with
      | inr x =>
          match values with
          | PDict lv => rest (<[lv := <[k := PFloat (py_min 1.0 (x + c))]> vd]> h)
          | _ => (inl TypeError, h)
          end
      | inl e => (inl e, h)
      end).
  { intros v. rewrite bind_run. unfold py_add. rewrite bind_run. unfold lift_exn.
    destruct (as_float v) as [e|x]; [done|]. 
    unfold mret, M_ret. rewrite bind_run. unfold setitem.
    destruct values; try done. simpl in Hd. by rewrite Hd. }
  destruct (vd !! k) as [v|]; simpl; [apply Hstep|].
  apply (Hstep (PInt 0)).
Qed.

(** One dampening statement, [values[k] = max(-1.0, values.get(k, 0) - c)],
    followed by the rest of the body. *)
Lemma dampen_step {A} values k c (rest : M heap A) h :
  (v ← dict_get values k (mret (PInt 0)); x ← py_sub v c;
   setitem values k (PFloat (py_max (-1.0) x));; rest) h =
  match deref h values with
  | Some vd =>
      match operand (vd !! k) with
      | inr x =>
          match values with
          | PDict lv => rest (<[lv := <[k := PFloat (py_max (-1.0) (x - c))]> vd]> h)
          | _ => (inl TypeError, h)
          end
      | inl e => (inl e, h)
      end
  | None => (inl AttributeError, h)
  end.
Proof.
  rewrite bind_run. unfold dict_get, operand.
  destruct (deref h values) as [vd|] eqn:Hd; [|done].
  assert (Hstep : ∀ v, (x ← py_sub v c; setitem values k (PFloat (py_max (-1.0) x));; rest) h =
    match as_float v with
      | inr x =>
          match values with
          | PDict lv => rest (<[lv := <[k := PFloat (py_max (-1.0) (x - c))]> vd]> h)
          | _ => (inl TypeError, h)
          end
      | inl e => (inl e, h)
      end).
  { intros v. rewrite bind_run. unfold py_sub. rewrite bind_run. unfold lift_exn.
    destruct (as_float v) as [e|x]; [done|]. 
    unfold mret, M_ret. rewrite bind_run. unfold setitem.
    destruct values; try done. simpl in Hd. by rewrite Hd. }
  destruct (vd !! k) as [v|]; simpl; [apply Hstep|].
  apply (Hstep (PInt 0)).
Qed.

(** The five operands of a call: each is a number, or the call has raised. *)
Ltac five_operands vd :=
  destruct (operand (vd !! "storm_bringer")) as [?|a]; [done|];
  destruct (operand (vd !! "void_singer")) as [?|b]; [done|];
  destruct (operand (vd !! "spark_lord")) as [?|c]; [done|];
  destruct (operand (vd !! "quiet_tide")) as [?|d]; [done|];
  destruct (operand (vd !! "silk_shadow")) as [?|e]; [done|].

(** The whole body on a dict signal: the first operand that is not a number
    raises, with the assignments made so far in the store. *)
Lemma transform_signal_body ls sd lv vd h1 h :
  h !! ls = Some sd → values_cell h sd lv vd h1 →
  transform_signal (PDict ls) h =
    match operand (vd !! "storm_bringer") with inl e => (inl e, h1) | inr a =>
    let d1 := <["storm_bringer" := PFloat (py_min 1.0 (a + 0.35))]> vd in
    match operand (vd !! "void_singer") with inl e => (inl e, <[lv := d1]> h1) | inr b =>
    let d2 := <["void_singer" := PFloat (py_min 1.0 (b + 0.15))]> d1 in
    match operand (vd !! "spark_lord") with inl e => (inl e, <[lv := d2]> h1) | inr c =>
    let d3 := <["spark_lord" := PFloat (py_min 1.0 (c + 0.10))]> d2 in
    match operand (vd !! "quiet_tide") with inl e => (inl e, <[lv := d3]> h1) | inr d =>
    let d4 := <["quiet_tide" := PFloat (py_max (-1.0) (d - 0.20))]> d3 in
    match operand (vd !! "silk_shadow") with inl e => (inl e, <[lv := d4]> h1) | inr e =>
    (inr (PDict ls), transformed h1 ls lv sd vd (Weights a b c d e))
    end end end end end.
Proof.
  intros Hls Hcell. unfold transform_signal. rewrite bind_run.
  assert (Hv : h1 !! lv = Some vd).
  { destruct Hcell as [(_ & ? & ->)|(_ & -> & -> & ->)]; [done|]. by rewrite lookup_insert_eq. }
  assert (Hget : dict_get (PDict ls) "values" (new_dict ∅) h = (inr (PDict lv), h1)).
  { unfold dict_get; simpl. rewrite Hls.
    destruct Hcell as [(-> & ? & ->)|(-> & -> & -> & ->)]; done. }
  rewrite Hget. clear Hget.
  rewrite amplify_step. simpl. rewrite Hv.
  destruct (operand (vd !! "storm_bringer")) as [?|a]; [done|].
  rewrite amplify_step. simpl. rewrite lookup_insert_eq, lookup_insert_ne by done.
  destruct (operand (vd !! "void_singer")) as [?|b]; [done|].
  rewrite insert_insert_eq.
  rewrite amplify_step. simpl. rewrite lookup_insert_eq, !lookup_insert_ne by done.
  destruct (operand (vd !! "spark_lord")) as [?|c]; [done|].
  rewrite insert_insert_eq.
  rewrite dampen_step. simpl. rewrite lookup_insert_eq, !lookup_insert_ne by done.
  destruct (operand (vd !! "quiet_tide")) as [?|d]; [done|].
  rewrite insert_insert_eq.
  rewrite dampen_step. simpl. rewrite lookup_insert_eq, !lookup_insert_ne by done.
  destruct (operand (vd !! "silk_shadow")) as [?|e]; [done|].
  rewrite insert_insert_eq.
  rewrite bind_run. unfold setitem, transformed, adjusted. simpl.
  rewrite lookup_insert. 
  destruct (decide (lv = ls)) as [->|Hne].
  - rewrite decide_True by done. done.
  - rewrite (decide_False (P := ls = lv)) by done.
    assert (h1 !! ls = Some sd) as ->; [|done].
    destruct Hcell as [(_ & ? & ->)|(_ & -> & -> & ->)]; [done|]. by rewrite lookup_insert_ne.
Qed.

(** A call that returns was given a dict, found its values mapping, read
    five numbers and left the store [transformed]. *)
Lemma transform_signal_inv signal h r h' :
  transform_signal signal h = (inr r, h') →
  ∃ ls sd lv vd h1 ws,
    signal = PDict ls ∧ r = signal ∧ h !! ls = Some sd ∧
    values_cell h sd lv vd h1 ∧ operands vd = Some ws ∧
    h' = transformed h1 ls lv sd vd ws.
Proof.
  intros Hrun.
  destruct (deref h signal) as [sd|] eqn:Hsd; cycle 1.
  { unfold transform_signal in Hrun. rewrite bind_run in Hrun.
    unfold dict_get in Hrun. by rewrite Hsd in Hrun. }
  destruct signal as [| | | | | |ls]; try done. simpl in Hsd.
  assert (∃ lv vd h1, values_cell h sd lv vd h1) as (lv & vd & h1 & Hcell).
  { destruct (sd !! "values") as [v|] eqn:Hv; cycle 1.
    { eexists _, _, _. right. done. }
    destruct (deref h v) as [vd|] eqn:Hvd.
    { destruct v; try done. eexists _, _, _. left. done. }
    unfold transform_signal in Hrun. rewrite bind_run in Hrun.
    unfold dict_get at 1 in Hrun. simpl in Hrun. rewrite Hsd, Hv in Hrun.
    rewrite amplify_step, Hvd in Hrun. done. }
  rewrite (transform_signal_body _ _ _ _ _ _ Hsd Hcell) in Hrun.
  exists ls, sd, lv, vd, h1. unfold operands.
  five_operands vd.
  simpl in Hrun. injection Hrun as <- <-. by eexists.
Qed.

Lemma transform_signal_run ls sd lv vd h1 ws h :
  h !! ls = Some sd → values_cell h sd lv vd h1 → operands vd = Some ws →
  transform_signal (PDict ls) h = (inr (PDict ls), transformed h1 ls lv sd vd ws).
Proof.
  intros Hls Hcell Hws. rewrite (transform_signal_body _ _ _ _ _ _ Hls Hcell).
  unfold operands in Hws.
  five_operands vd.
  by injection Hws as <-.
Qed.

Lemma values_cell_old h ls sd lv vd h1 :
  h !! ls = Some sd → values_cell h sd lv vd h1 → values_of h (PDict ls) = vd.
Proof.
  intros Hls [(Hv & Hvd & ->)|(Hv & -> & -> & ->)]; unfold values_of, field; simpl;
    rewrite Hls; simpl; rewrite Hv; simpl; [by rewrite Hvd|done].
Qed.

Lemma values_cell_fresh h ls sd lv vd h1 :
  h !! ls = Some sd → values_cell h sd lv vd h1 → sd !! "values" = None → ls ≠ lv.
Proof.
  intros Hls [(Hv & _)|(_ & -> & _)] Hnone; [congruence|].
  intros ->. apply (is_fresh (dom h)). apply elem_of_dom. eauto.
Qed.

Lemma values_of_transformed h ls sd lv vd h1 ws :
  h !! ls = Some sd → values_cell h sd lv vd h1 →
  values_of (transformed h1 ls lv sd vd ws) (PDict ls) = adjusted vd ws.
Proof.
  intros Hls Hcell. unfold values_of, field, transformed; simpl.
  rewrite lookup_insert_eq; simpl. rewrite lookup_insert_eq; simpl.
  rewrite lookup_insert. destruct (decide (ls = lv)) as [->|Hne]; simpl.
  - apply insert_id.
    unfold adjusted. rewrite !lookup_insert_ne by done.
    pose proof (values_cell_fresh _ _ _ _ _ _ Hls Hcell) as Hfresh.
    destruct Hcell as [(Hv & Hvd & ->)|(Hv & _)]; [congruence|].
    by destruct Hfresh.
  - by rewrite lookup_insert_eq.
Qed.

(** The values mapping after a successful call, in terms of the one before. *)
Lemma transform_signal_values signal h r h' :
  transform_signal signal h = (inr r, h') →
  r = signal ∧ ∃ ws, operands (values_of h signal) = Some ws ∧
    values_of h' signal = adjusted (values_of h signal) ws.
Proof.
  intros (ls & sd & lv & vd & h1 & ws & -> & -> & Hls & Hcell & Hws & ->)%transform_signal_inv.
  split; [done|]. exists ws.
  rewrite (values_cell_old _ _ _ _ _ _ Hls Hcell).
  by rewrite (values_of_transformed _ _ _ _ _ _ ws Hls Hcell).
Qed.

(** ** The handlers, evaluated *)

Section HandlerFacts.
Context {frame : Type}.
Variable json_loads : frame → heap → option (pyval * heap).
Variable json_dumps : heap → pyval → frame.

Lemma getitem_pure o k h : getitem o k h = ((getitem o k h).1, h).
Proof. unfold getitem. destruct (deref h o) as [d|]; [|done]. by destruct (d !! k). Qed.

Lemma in_store_getitem o k h (s : list frame) c :
  in_store (getitem o k) (World h s c) = ((getitem o k h).1, World h s c).
Proof. unfold in_store; simpl. by rewrite getitem_pure. Qed.

Lemma getitem_dict o k h md :
  deref h o = Some md →
  (getitem o k h).1 = match md !! k with Some v => inr v | None => inl (KeyError k) end.
Proof. intros Hd. unfold getitem. rewrite Hd. by destruct (md !! k). Qed.

(** The handler as a decision tree over the decoded message. *)
Lemma on_message_eq message h0 s0 c0 :
  on_message json_loads json_dumps message (World h0 s0 c0) =
  match json_loads message h0 with
  | None => (inl JSONDecodeError, World h0 s0 c0)
  | Some (msg, h1) =>
    let w1 := World h1 s0 c0 in
    match deref h1 msg with
    | None => (inl TypeError, w1)
    | Some md =>
      match md !! "type" with
      | None => (inl (KeyError "type"), w1)
      | Some t =>
        if py_eq_str t "transform" then
          match md !! "signal" with
          | None => (inl (KeyError "signal"), w1)
          | Some s =>
            match transform_signal s h1 with
            | (inl e, h2) => (inl e, World h2 s0 c0)
            | (inr signal, h2) =>
              match (getitem msg "request_id" h2).1 with
              | inl e => (inl e, World h2 s0 c0)
              | inr rid =>
                let r := fresh (dom h2) in
                let h3 := <[r := response_dict rid signal]> h2 in
                if c0
                then (inr (), World h3 (s0 ++ [json_dumps h3 (PDict r)]) c0)
                else (inl ConnectionClosed, World h3 s0 c0)
              end
            end
          end
        else if py_eq_str t "registered" then
          match md !! "agent_id" with
          | None => (inl (KeyError "agent_id"), w1)
          | Some _ => (inr (), w1)
          end
        else (inr (), w1)
      end
    end
  end.
Proof.
  unfold on_message. rewrite bind_run. unfold loads at 1; simpl.
  destruct (json_loads message h0) as [[msg h1]|]; [|done].
  cbv zeta.
  rewrite bind_run, in_store_getitem.
  destruct (deref h1 msg) as [md|] eqn:Hmd; cycle 1.
  { unfold getitem. by rewrite Hmd. }
  rewrite (getitem_dict _ _ _ _ Hmd).
  destruct (md !! "type") as [t|] eqn:Ht; [|done].
  rewrite bind_run. unfold dumps at 1. rewrite bind_run, in_store_getitem.
  rewrite (getitem_dict _ _ _ _ Hmd), Ht.
  destruct (py_eq_str t "transform").
  - rewrite bind_run, in_store_getitem, (getitem_dict _ _ _ _ Hmd).
    destruct (md !! "signal") as [s|]; [|done].
    rewrite bind_run. unfold in_store at 1; simpl.
    destruct (transform_signal s h1) as [[e|signal] h2]; [done|].
    rewrite bind_run, in_store_getitem.
    destruct (getitem msg "request_id" h2).1 as [e|rid] eqn:Hrid; [done|].
    rewrite bind_run. unfold in_store at 1, new_dict at 1; simpl.
    rewrite bind_run, in_store_getitem.
    assert ((getitem msg "request_id"
      (<[fresh (dom h2) := response_dict rid signal]> h2)).1 = inr rid) as Hrid'.
    { unfold getitem in *. destruct (deref h2 msg) as [d|] eqn:Hd; [|done].
      destruct msg; try done. simpl in *. rewrite lookup_insert_ne.
      - rewrite Hd. by destruct (d !! "request_id").
      - intros <-. apply (is_fresh (dom h2)), elem_of_dom. eauto. }
    unfold response_dict in *. rewrite Hrid'.
    rewrite bind_run. unfold dumps at 1. unfold ws_send. simpl.
    by destruct c0.
  - rewrite bind_run, in_store_getitem, (getitem_dict _ _ _ _ Hmd), Ht.
    destruct (py_eq_str t "registered").
    + rewrite bind_run, in_store_getitem, (getitem_dict _ _ _ _ Hmd).
      by destruct (md !! "agent_id").
    + rewrite bind_run, in_store_getitem, (getitem_dict _ _ _ _ Hmd), Ht.
      by destruct (py_eq_str t "pong").
Qed.
End HandlerFacts.

(** ** What one call changes *)

Lemma adjusted_other vd ws k : k ∉ named → adjusted vd ws !! k = vd !! k.
Proof.
  intros Hk. unfold adjusted, named in *.
  rewrite !lookup_insert_ne; [done|..]; intros <-; apply Hk; set_solver.
Qed.

Lemma adjusted_dom vd ws : dom (adjusted vd ws) = dom vd ∪ list_to_set named.
Proof. unfold adjusted, named. rewrite !dom_insert_L. set_solver. Qed.

(** Every object keeps every entry whose key is neither ["values"] nor one
    of the five names, whatever the aliasing between the objects. *)
Lemma transform_signal_field signal h r h' o k :
  transform_signal signal h = (inr r, h') →
  k ∉ named → k ≠ "values" →
  field h' o k = field h o k.
Proof.
  intros (ls & sd & lv & vd & h1 & ws & -> & -> & Hls & Hcell & Hws & ->)%transform_signal_inv Hk Hv.
  unfold field. destruct o as [| | | | | |l]; try done. simpl. unfold transformed.
  destruct (decide (l = ls)) as [->|Hl].
  - rewrite lookup_insert_eq, Hls. simpl. rewrite lookup_insert_ne by done.
    case_decide as Heq; [|done]. subst lv. rewrite adjusted_other by done.
    destruct Hcell as [(_ & Hvd & _)|(_ & -> & _)]; [congruence|].
    destruct (is_fresh (dom h)). apply elem_of_dom. eauto.
  - rewrite lookup_insert_ne by done.
    destruct (decide (l = lv)) as [->|Hl'].
    + rewrite lookup_insert_eq. simpl. rewrite adjusted_other by done.
      destruct Hcell as [(_ & -> & _)|(_ & -> & -> & _)]; [done|].
      rewrite lookup_empty.
      destruct (h !! fresh (dom h)) as [d|] eqn:Hd; [|done].
      destruct (is_fresh (dom h)). apply elem_of_dom. eauto.
    + rewrite lookup_insert_ne by done.
      destruct Hcell as [(_ & _ & ->)|(_ & -> & _ & ->)]; [done|].
      by rewrite lookup_insert_ne.
Qed.

(** No object disappears. *)
Lemma transform_signal_alloc signal h r h' o :
  transform_signal signal h = (inr r, h') →
  is_Some (deref h o) → is_Some (deref h' o).
Proof.
  intros (ls & sd & lv & vd & h1 & ws & -> & -> & Hls & Hcell & Hws & ->)%transform_signal_inv.
  destruct o as [| | | | | |l]; try done. simpl. unfold transformed. intros Hl.
  rewrite lookup_insert. case_decide; [done|].
  rewrite lookup_insert. case_decide; [done|].
  destruct Hcell as [(_ & _ & ->)|(_ & -> & _ & ->)]; [done|].
  rewrite lookup_insert. by case_decide.
Qed.

(** Away from cycles, the signal itself changes in ["values"] only. *)
Lemma transform_signal_top signal h r h' k :
  transform_signal signal h = (inr r, h') →
  field h signal "values" ≠ Some signal → k ≠ "values" →
  field h' signal k = field h signal k.
Proof.
  intros (ls & sd & lv & vd & h1 & ws & -> & -> & Hls & Hcell & Hws & ->)%transform_signal_inv Hcyc Hk.
  unfold field in *. simpl in *. unfold transformed. rewrite lookup_insert_eq, Hls in *. simpl in *.
  rewrite lookup_insert_ne by done.
  case_decide as Heq; [|done]. subst lv.
  destruct Hcell as [(Hv & _)|(_ & -> & _)]; [done|].
  destruct (is_fresh (dom h)). apply elem_of_dom. eauto.
Qed.

Lemma field_alloc h o k d :
  is_Some (deref h o) → field (<[fresh (dom h) := d]> h) o k = field h o k.
Proof.
  unfold field. destruct o as [| | | | | |l]; try done. simpl. intros Hl.
  rewrite lookup_insert_ne; [done|]. intros <-.
  apply (is_fresh (dom h)), elem_of_dom. done.
Qed.

Lemma deref_alloc h o d :
  is_Some (deref h o) → deref (<[fresh (dom h) := d]> h) o = deref h o.
Proof.
  destruct o as [| | | | | |l]; try done. simpl. intros Hl.
  rewrite lookup_insert_ne; [done|]. intros <-.
  apply (is_fresh (dom h)), elem_of_dom. done.
Qed.

Lemma values_of_alloc h signal d :
  is_Some (field h signal "values" ≫= deref h) →
  values_of (<[fresh (dom h) := d]> h) signal = values_of h signal.
Proof.
  unfold values_of. intros [vd Hvd].
  destruct (field h signal "values") as [v|] eqn:Hf; [|done]. simpl in Hvd.
  rewrite field_alloc, Hf; simpl.
  - rewrite deref_alloc; [done|]. eauto.
  - unfold field in Hf. destruct (deref h signal); [eauto|done].
Qed.

Lemma getitem_field o k h v : (getitem o k h).1 = inr v ↔ field h o k = Some v.
Proof.
  unfold getitem, field. destruct (deref h o) as [d|]; simpl; [|done].
  destruct (d !! k); simpl; split; congruence.
Qed.

Lemma getitem_raises o k h e : (getitem o k h).1 = inl e → field h o k = None.
Proof.
  unfold getitem, field. destruct (deref h o) as [d|]; simpl; [|done].
  by destruct (d !! k).
Qed.

Lemma field_deref h o k v : field h o k = Some v → is_Some (deref h o).
Proof. unfold field. destruct (deref h o); [eauto|done]. Qed.

Lemma py_eq_str_true v s : py_eq_str v s = true ↔ v = PStr s.
Proof.
  destruct v; simpl; try (split; [done|congruence]).
  rewrite bool_decide_eq_true. split; congruence.
Qed.

Lemma request_id_not_named : "request_id" ∉ named.
Proof. unfold named. set_solver. Qed.

Lemma signal_not_named : "signal" ∉ named.
Proof. unfold named. set_solver. Qed.

Section HandlerOutcomes.
Context {frame : Type}.
Variable json_loads : frame → heap → option (pyval * heap).
Variable json_dumps : heap → pyval → frame.

Lemma on_open_eq h0 s0 c0 :
  on_open json_dumps (World h0 s0 c0) =
  let r := fresh (dom h0) in
  let h1 := <[r := register_dict]> h0 in
  if c0 then (inr (), World h1 (s0 ++ [json_dumps h1 (PDict r)]) c0)
  else (inl ConnectionClosed, World h1 s0 c0).
Proof.
  unfold on_open. rewrite bind_run. unfold in_store at 1, new_dict at 1; simpl.
  rewrite bind_run. unfold dumps at 1, ws_send; simpl.
  unfold register_dict. by destruct c0.
Qed.

(** A successful run on a transform request, step by step. *)
Lemma on_message_transform_inv message w w' msg h1 :
  on_message json_loads json_dumps message w = (inr (), w') →
  json_loads message (store w) = Some (msg, h1) →
  field h1 msg "type" = Some (PStr "transform") →
  ∃ signal rid h2,
    field h1 msg "signal" = Some signal ∧
    transform_signal signal h1 = (inr signal, h2) ∧
    field h1 msg "request_id" = Some rid ∧
    connected w = true ∧
    w' = World (<[fresh (dom h2) := response_dict rid signal]> h2)
               (sent w ++ [json_dumps (<[fresh (dom h2) := response_dict rid signal]> h2)
                                      (PDict (fresh (dom h2)))])
               true.
Proof.
  destruct w as [h0 s0 c0]. rewrite on_message_eq. simpl. intros Hrun Hl Hty.
  rewrite Hl in Hrun. simpl in Hrun. unfold field in *.
  destruct (deref h1 msg) as [md|] eqn:Hmd; [|done]. simpl in *.
  rewrite Hty in Hrun. simpl in Hrun.
  destruct (md !! "signal") as [s|] eqn:Hs; [|done].
  destruct (transform_signal s h1) as [[e|signal] h2] eqn:Htr; [done|].
  destruct (transform_signal_values _ _ _ _ Htr) as [-> _].
  destruct (getitem msg "request_id" h2).1 as [e|rid] eqn:Hrid; [done|].
  apply getitem_field in Hrid.
  rewrite (transform_signal_field _ _ _ _ msg "request_id" Htr) in Hrid;
    [|apply request_id_not_named|done].
  unfold field in Hrid. rewrite Hmd in Hrid. simpl in Hrid.
  destruct c0; [|done]. injection Hrun as <-.
  by exists s, rid, h2.
Qed.
End HandlerOutcomes.

(** ** Repeated application *)

Ltac computed :=
  match goal with
  | |- ?a = ?b => vm_cast_no_check (@eq_refl _ b)
  end.

Lemma constants_finite :
  finb 0.35 = true ∧ finb 0.15 = true ∧ finb 0.10 = true ∧ finb 0.20 = true.
Proof. repeat split; computed. Qed.

Lemma constants_positive :
  (0 <? sc 0.35) = true ∧ (0 <? sc 0.15) = true ∧ (0 <? sc 0.10) = true ∧ (0 <? sc 0.20) = true.
Proof. repeat split; computed. Qed.

Lemma fixed_stays {A} (f : A → A) (n m : nat) (x : A) :
  f (Nat.iter n f x) = Nat.iter n f x →
  f (Nat.iter (m + n) f x) = Nat.iter (m + n) f x.
Proof.
  intros Hn. induction m as [|m IH]; [done|]. simpl. by rewrite IH.
Qed.

Lemma amp_iter_mono c n x y :
  finb c = true → (x <=? y)%float = true →
  (Nat.iter n (amp c) x <=? Nat.iter n (amp c) y)%float = true.
Proof. intros Fc Hxy. induction n as [|n IH]; [done|]. simpl. by apply amp_mono. Qed.

Lemma damp_iter_mono c n x y :
  finb c = true → (x <=? y)%float = true →
  (Nat.iter n (damp c) x <=? Nat.iter n (damp c) y)%float = true.
Proof. intros Fc Hxy. induction n as [|n IH]; [done|]. simpl. by apply damp_mono. Qed.

(** From -1.0 upwards, the amplified operand reaches 1.0 no later than
    -1.0 itself does. *)
Lemma amp_saturates c n x :
  finb c = true →
  Nat.iter (S n) (amp c) (-1)%float = 1%float →
  (-1 <=? x)%float = true →
  Nat.iter (S n) (amp c) x = 1%float.
Proof.
  intros Fc Hn Hx. symmetry. apply leb_antisym.
  - rewrite <- Hn. by apply amp_iter_mono.
  - simpl. apply py_min_le. apply one_facts.
  - destruct one_facts as (_ & _ & ?). lia.
Qed.

Lemma damp_saturates c n x :
  finb c = true →
  Nat.iter (S n) (damp c) 1%float = (-1)%float →
  (x <=? 1)%float = true →
  Nat.iter (S n) (damp c) x = (-1)%float.
Proof.
  intros Fc Hn Hx. symmetry. apply leb_antisym.
  - simpl. apply py_max_ge. apply mone_facts.
  - rewrite <- Hn. by apply damp_iter_mono.
  - destruct mone_facts as (_ & _ & ?). lia.
Qed.

(** Within the declared range both bounds survive one adjustment. *)
Lemma amp_in_range c x :
  finb c = true → 0 <= sc c → in_range x → in_range (amp c x).
Proof.
  intros Fc Hc [(N1 & Nx & Hlo)%leb_iff _]. split.
  - apply leb_iff. split; [done|]. split; [by apply amp_nan|].
    rewrite amp_sc by done. pose proof (shiftF_up (sc c) x Nx Hc).
    destruct one_facts as (_ & _ & ?). destruct mone_facts as (_ & _ & ?). lia.
  - apply py_min_le, one_facts.
Qed.

Lemma damp_in_range c x :
  finb c = true → 0 <= sc c → in_range x → in_range (damp c x).
Proof.
  intros Fc Hc [_ (Nx & N1 & Hhi)%leb_iff]. split.
  - apply py_max_ge, mone_facts.
  - apply leb_iff. split; [by apply damp_nan|]. split; [done|].
    rewrite damp_sc by done. pose proof (shiftF_down (- sc c) x Nx ltac:(lia)).
    destruct one_facts as (_ & _ & ?). destruct mone_facts as (_ & _ & ?). lia.
Qed.

Lemma advance_iter n ws :
  Nat.iter n advance ws =
  Weights (Nat.iter n (amp 0.35) (storm_bringer ws)) (Nat.iter n (amp 0.15) (void_singer ws))
          (Nat.iter n (amp 0.10) (spark_lord ws)) (Nat.iter n (damp 0.20) (quiet_tide ws))
          (Nat.iter n (damp 0.10) (silk_shadow ws)).
Proof.
  induction n as [|n IH]; [by destruct ws|]. simpl. by rewrite IH.
Qed.

(** Every sequence of operands becomes stationary. *)
Lemma advance_converges ws :
  ∃ n, advance (Nat.iter n advance ws) = Nat.iter n advance ws.
Proof.
  destruct constants_finite as (F35 & F15 & F10 & F20).
  destruct constants_positive as (P35%Z.ltb_lt & P15%Z.ltb_lt & P10%Z.ltb_lt & P20%Z.ltb_lt).
  destruct (amp_converges 0.35 (storm_bringer ws) F35 P35) as [n1 H1].
  destruct (amp_converges 0.15 (void_singer ws) F15 P15) as [n2 H2].
  destruct (amp_converges 0.10 (spark_lord ws) F10 P10) as [n3 H3].
  destruct (damp_converges 0.20 (quiet_tide ws) F20 P20) as [n4 H4].
  destruct (damp_converges 0.10 (silk_shadow ws) F10 P10) as [n5 H5].
  exists (n1 + n2 + n3 + n4 + n5)%nat. rewrite advance_iter. unfold advance; simpl.
  f_equal.
  - replace (n1 + n2 + n3 + n4 + n5)%nat with ((n2 + n3 + n4 + n5) + n1)%nat by lia.
    by apply fixed_stays.
  - replace (n1 + n2 + n3 + n4 + n5)%nat with ((n1 + n3 + n4 + n5) + n2)%nat by lia.
    by apply fixed_stays.
  - replace (n1 + n2 + n3 + n4 + n5)%nat with ((n1 + n2 + n4 + n5) + n3)%nat by lia.
    by apply fixed_stays.
  - replace (n1 + n2 + n3 + n4 + n5)%nat with ((n1 + n2 + n3 + n5) + n4)%nat by lia.
    by apply fixed_stays.
  - replace (n1 + n2 + n3 + n4 + n5)%nat with ((n1 + n2 + n3 + n4) + n5)%nat by lia.
    by apply fixed_stays.
Qed.

Lemma saturation_from_the_bounds :
  Nat.iter 21 (amp 0.35) (-1)%float = 1%float ∧
  Nat.iter 21 (amp 0.15) (-1)%float = 1%float ∧
  Nat.iter 21 (amp 0.10) (-1)%float = 1%float ∧
  Nat.iter 21 (damp 0.20) 1%float = (-1)%float ∧
  Nat.iter 21 (damp 0.10) 1%float = (-1)%float.
Proof. repeat split; computed. Qed.

(** Twenty-one calls saturate every operand of the declared range. *)
Lemma advance_saturates ws :
  in_range (storm_bringer ws) → in_range (void_singer ws) → in_range (spark_lord ws) →
  in_range (quiet_tide ws) → in_range (silk_shadow ws) →
  Nat.iter 21 advance ws = saturated.
Proof.
  intros [H1 _] [H2 _] [H3 _] [_ H4] [_ H5].
  destruct constants_finite as (F35 & F15 & F10 & F20).
  destruct saturation_from_the_bounds as (S1 & S2 & S3 & S4 & S5).
  rewrite advance_iter. unfold saturated. f_equal.
  - by apply amp_saturates.
  - by apply amp_saturates.
  - by apply amp_saturates.
  - by apply damp_saturates.
  - by apply damp_saturates.
Qed.

Lemma advance_saturated : advance saturated = saturated.
Proof. computed. Qed.

(** ** Repeated application, in the store *)

Lemma operand_float x : operand (Some (PFloat x)) = inr x.
Proof. done. Qed.

Lemma entries_operands vd ws : entries vd ws → operands vd = Some ws.
Proof.
  intros (H1 & H2 & H3 & H4 & H5). unfold operands.
  rewrite H1, H2, H3, H4, H5, !operand_float. by destruct ws.
Qed.

Lemma entries_adjusted vd ws : entries (adjusted vd ws) (advance ws).
Proof.
  unfold entries, adjusted, advance; simpl.
  repeat split; repeat first [ by rewrite lookup_insert_eq | rewrite lookup_insert_ne by done ].
Qed.

Lemma entries_fixed vd ws : entries vd ws → advance ws = ws → adjusted vd ws = vd.
Proof.
  intros (H1 & H2 & H3 & H4 & H5) Hfix. unfold adjusted.
  destruct ws as [a b c d e]. unfold advance in Hfix. simpl in *.
  injection Hfix as E1 E2 E3 E4 E5. unfold amp, damp in *.
  rewrite E1, E2, E3, E4, E5.
  rewrite (insert_id vd "storm_bringer") by done.
  rewrite (insert_id vd "void_singer") by done.
  rewrite (insert_id vd "spark_lord") by done.
  rewrite (insert_id vd "quiet_tide") by done.
  by rewrite (insert_id vd "silk_shadow").
Qed.

(** After a first successful call the signal holds the adjusted operands. *)
Lemma transform_signal_holds signal h r h' :
  transform_signal signal h = (inr r, h') →
  ∃ ws, operands (values_of h signal) = Some ws ∧ holds h' signal (advance ws).
Proof.
  intros Hrun. pose proof Hrun as (ls & sd & lv & vd & h1 & ws & -> & -> & Hls & Hcell & Hws & ->)%transform_signal_inv.
  exists ws. rewrite (values_cell_old _ _ _ _ _ _ Hls Hcell). split; [done|].
  unfold holds, transformed. destruct (decide (ls = lv)) as [E|E].
  - eexists ls, _, lv, _. split; [done|].
    rewrite lookup_insert_eq. split; [done|]. rewrite lookup_insert_eq. split; [done|].
    rewrite lookup_insert, decide_True by done. split; [done|].
    destruct (entries_adjusted vd ws) as (H1 & H2 & H3 & H4 & H5).
    unfold entries. rewrite !lookup_insert_ne by done. done.
  - eexists ls, _, lv, _. split; [done|].
    rewrite lookup_insert_eq. split; [done|]. rewrite lookup_insert_eq. split; [done|].
    rewrite lookup_insert, decide_False by done.
    rewrite lookup_insert_eq. split; [done|]. apply entries_adjusted.
Qed.

(** From then on every call succeeds, and changes nothing once the
    operands are stationary. *)
Lemma holds_step signal h ws :
  holds h signal ws →
  ∃ h', transform_signal signal h = (inr signal, h') ∧
        holds h' signal (advance ws) ∧
        (advance ws = ws → h' = h).
Proof.
  intros (ls & sd & lv & vd & -> & Hls & Hv & Hvd & Hent).
  assert (Hcell : values_cell h sd lv vd h) by (left; done).
  pose proof (transform_signal_run _ _ _ _ _ ws _ Hls Hcell (entries_operands _ _ Hent)) as Hrun.
  eexists. split; [exact Hrun|]. split.
  - destruct (transform_signal_holds _ _ _ _ Hrun) as (ws' & Hws' & Hh).
    rewrite (values_cell_old _ _ _ _ _ _ Hls Hcell), (entries_operands _ _ Hent) in Hws'.
    by injection Hws' as <-.
  - intros Hfix. unfold transformed. rewrite (entries_fixed _ _ Hent Hfix).
    rewrite (insert_id h lv vd Hvd).
    assert ((if decide (ls = lv) then vd else sd) = sd) as ->.
    { case_decide; [|done]. congruence. }
    rewrite (insert_id sd "values" _ Hv). by apply insert_id.
Qed.

Lemma iterate_holds n signal h ws :
  holds h signal ws →
  ∃ h', iterate n signal h = (inr signal, h') ∧ holds h' signal (Nat.iter n advance ws).
Proof.
  revert h ws. induction n as [|n IH]; intros h ws Hh.
  - by exists h.
  - destruct (holds_step _ _ _ Hh) as (h1 & Hrun & Hh1 & _).
    destruct (IH _ _ Hh1) as (h' & Hit & Hh').
    exists h'. split.
    + simpl. rewrite bind_run, Hrun. exact Hit.
    + by rewrite Nat.iter_succ_r.
Qed.

Lemma holds_values h signal ws : holds h signal ws → entries (values_of h signal) ws.
Proof.
  intros (ls & sd & lv & vd & -> & Hls & Hv & Hvd & Hent).
  unfold values_of, field; simpl. rewrite Hls; simpl. rewrite Hv; simpl. by rewrite Hvd.
Qed.

Lemma iterate_first n signal h r h1 :
  transform_signal signal h = (inr r, h1) →
  iterate (S n) signal h = iterate n signal h1.
Proof.
  intros Hrun. simpl. rewrite bind_run, Hrun.
  by destruct (transform_signal_values _ _ _ _ Hrun) as [-> _].
Qed.

(** Calls succeed exactly on a dict signal whose values mapping, when
    present, is a dict, and whose five entries are absent or numbers that
    convert to floats. *)
Lemma transform_signal_total signal h :
  is_Some (deref h signal) →
  (field h signal "values" = None ∨ is_Some (field h signal "values" ≫= deref h)) →
  is_Some (operands (values_of h signal)) →
  ∃ h', transform_signal signal h = (inr signal, h').
Proof.
  intros [sd Hsd] Hv [ws Hws]. destruct signal as [| | | | | |ls]; try done. simpl in Hsd.
  assert (∃ lv vd h1, values_cell h sd lv vd h1) as (lv & vd & h1 & Hcell).
  { unfold field in Hv. simpl in Hv. rewrite Hsd in Hv. simpl in Hv.
    destruct Hv as [Hv|[vd Hv]].
    - eexists _, _, _. by right.
    - destruct (sd !! "values") as [v|] eqn:E; [|done]. simpl in Hv.
      destruct v; try done. eexists _, _, _. left. done. }
  rewrite (values_cell_old _ _ _ _ _ _ Hsd Hcell) in Hws.
  eexists. by apply (transform_signal_run _ _ _ _ _ ws _ Hsd Hcell).
Qed.

(** ** The signal transform *)

(** Scenario 1: [{"values": {}}]. *)
Example scenario_1 :
  transform_signal (PDict 1%positive) empty_signal = (inr (PDict 1%positive), amplified_once).
Proof. computed. Qed.

(** Scenario 2: 0.9 + 0.35 is clamped to 1.0. *)
Example scenario_2 :
  values_of (transform_signal (PDict 1%positive) storm_at_09).2 (PDict 1%positive)
    !! "storm_bringer" = Some (PFloat 1.0).
Proof. computed. Qed.

(** The transform is not idempotent. *)
Example scenario_twice :
  transform_signal (PDict 1%positive) amplified_once = (inr (PDict 1%positive), amplified_twice).
Proof. computed. Qed.

(** C1: a call that returns has set each of the three amplified keys to
    [min(1.0, old + delta)] with deltas 0.35, 0.15, 0.10 and each of the two
    dampened keys to [max(-1.0, old - delta)] with deltas 0.20, 0.10, where
    [old] is the entry of the values mapping before the call and an absent
    entry counts as 0.0. *)
Theorem transform_signal_named_keys signal h r h' :
  transform_signal signal h = (inr r, h') →
  operand None = inr 0%float ∧
  ∃ a b c d e,
    operand (values_of h signal !! "storm_bringer") = inr a ∧
    operand (values_of h signal !! "void_singer") = inr b ∧
    operand (values_of h signal !! "spark_lord") = inr c ∧
    operand (values_of h signal !! "quiet_tide") = inr d ∧
    operand (values_of h signal !! "silk_shadow") = inr e ∧
    values_of h' signal !! "storm_bringer" = Some (PFloat (py_min 1.0 (a + 0.35))) ∧
    values_of h' signal !! "void_singer" = Some (PFloat (py_min 1.0 (b + 0.15))) ∧
    values_of h' signal !! "spark_lord" = Some (PFloat (py_min 1.0 (c + 0.10))) ∧
    values_of h' signal !! "quiet_tide" = Some (PFloat (py_max (-1.0) (d - 0.20))) ∧
    values_of h' signal !! "silk_shadow" = Some (PFloat (py_max (-1.0) (e - 0.10))).
Proof.
  intros (_ & ws & Hws & ->)%transform_signal_values. split; [computed|].
  unfold operands in Hws.
  five_operands (values_of h signal).
  injection Hws as <-. exists a, b, c, d, e.
  destruct (entries_adjusted (values_of h signal) (Weights a b c d e)) as (H1 & H2 & H3 & H4 & H5).
  repeat split; done.
Qed.

Lemma transform_signal_named_keys_witness :
  transform_signal (PDict 1%positive) empty_signal = (inr (PDict 1%positive), amplified_once) ∧
  ∃ a, operand (values_of empty_signal (PDict 1%positive) !! "storm_bringer") = inr a ∧
       values_of amplified_once (PDict 1%positive) !! "storm_bringer" =
         Some (PFloat (py_min 1.0 (a + 0.35))).
Proof.
  assert (Hrun : transform_signal (PDict 1%positive) empty_signal =
                 (inr (PDict 1%positive), amplified_once)) by computed.
  split; [exact Hrun|].
  destruct (transform_signal_named_keys _ _ _ _ Hrun)
    as (_ & a & _ & _ & _ & _ & Ha & _ & _ & _ & _ & Hs & _).
  exists a. split; [exact Ha|exact Hs].
Defined.

(** C3: a key that is not one of the five names keeps its entry in the
    values mapping: the same value when present, absent when absent. *)
Theorem transform_signal_other_keys signal h r h' k :
  transform_signal signal h = (inr r, h') →
  k ∉ named →
  values_of h' signal !! k = values_of h signal !! k.
Proof.
  intros (_ & ws & _ & ->)%transform_signal_values Hk. by apply adjusted_other.
Qed.

Lemma ember_wing_not_named : "ember_wing" ∉ named.
Proof. apply (bool_decide_unpack _). vm_compute. exact I. Qed.

Lemma transform_signal_other_keys_witness :
  transform_signal (PDict 1%positive) storm_and_more = (inr (PDict 1%positive), storm_and_more_after) ∧
  values_of storm_and_more_after (PDict 1%positive) !! "ember_wing" =
    values_of storm_and_more (PDict 1%positive) !! "ember_wing".
Proof.
  assert (Hrun : transform_signal (PDict 1%positive) storm_and_more =
                 (inr (PDict 1%positive), storm_and_more_after)) by computed.
  split; [exact Hrun|].
  exact (transform_signal_other_keys _ _ _ _ _ Hrun ember_wing_not_named).
Defined.

(** C9: the values mapping returned has the keys it had before together
    with the five names, whether or not they were there. *)
Theorem transform_signal_key_set signal h r h' :
  transform_signal signal h = (inr r, h') →
  dom (values_of h' signal) = dom (values_of h signal) ∪ list_to_set named ∧
  ∀ k, k ∈ named → is_Some (values_of h' signal !! k).
Proof.
  intros (_ & ws & _ & ->)%transform_signal_values.
  split; [apply adjusted_dom|].
  intros k Hk. apply elem_of_dom. rewrite adjusted_dom. set_solver.
Qed.

Lemma transform_signal_key_set_witness :
  transform_signal (PDict 1%positive) empty_signal = (inr (PDict 1%positive), amplified_once) ∧
  dom (values_of amplified_once (PDict 1%positive)) =
    dom (values_of empty_signal (PDict 1%positive)) ∪ list_to_set named.
Proof.
  assert (Hrun : transform_signal (PDict 1%positive) empty_signal =
                 (inr (PDict 1%positive), amplified_once)) by computed.
  split; [exact Hrun|].
  exact (proj1 (transform_signal_key_set _ _ _ _ Hrun)).
Defined.

(** C4, as stated, fails: the amplified keys are clamped from above only.
    A weight of -5.0 comes out at -5.0 + 0.35, below -1.0. *)
Lemma clamp_is_one_sided :
  ∃ h' x,
    transform_signal (PDict 1%positive) storm_at_minus_5 = (inr (PDict 1%positive), h') ∧
    values_of h' (PDict 1%positive) !! "storm_bringer" = Some (PFloat x) ∧
    (x <? -1.0)%float = true.
Proof.
  exists (transform_signal (PDict 1%positive) storm_at_minus_5).2, (-5.0 + 0.35)%float.
  repeat split; computed.
Qed.

Lemma operands_in_range vd ws :
  operands vd = Some ws →
  (∀ k, k ∈ named → weight_in_range (vd !! k)) →
  in_range (storm_bringer ws) ∧ in_range (void_singer ws) ∧ in_range (spark_lord ws) ∧
  in_range (quiet_tide ws) ∧ in_range (silk_shadow ws).
Proof.
  intros Hws Hr. unfold operands in Hws.
  destruct (Hr "storm_bringer") as (a & Ha & Ra); [unfold named; set_solver|].
  destruct (Hr "void_singer") as (b & Hb & Rb); [unfold named; set_solver|].
  destruct (Hr "spark_lord") as (c & Hc & Rc); [unfold named; set_solver|].
  destruct (Hr "quiet_tide") as (d & Hd & Rd); [unfold named; set_solver|].
  destruct (Hr "silk_shadow") as (e & He & Re); [unfold named; set_solver|].
  rewrite Ha, Hb, Hc, Hd, He in Hws. by injection Hws as <-.
Qed.

Lemma advance_in_range ws :
  in_range (storm_bringer ws) ∧ in_range (void_singer ws) ∧ in_range (spark_lord ws) ∧
  in_range (quiet_tide ws) ∧ in_range (silk_shadow ws) →
  in_range (storm_bringer (advance ws)) ∧ in_range (void_singer (advance ws)) ∧
  in_range (spark_lord (advance ws)) ∧ in_range (quiet_tide (advance ws)) ∧
  in_range (silk_shadow (advance ws)).
Proof.
  intros (R1 & R2 & R3 & R4 & R5).
  destruct constants_finite as (F35 & F15 & F10 & F20).
  destruct constants_positive as (P35%Z.ltb_lt & P15%Z.ltb_lt & P10%Z.ltb_lt & P20%Z.ltb_lt).
  unfold advance; simpl.
  repeat split; first [apply amp_in_range|apply damp_in_range]; try done; lia.
Qed.

(** C4, amended: the three amplified keys come out at most 1.0 and the two
    dampened keys at least -1.0, for every input on which the call returns;
    the other bound is not enforced, and holds when the entries of the input
    are absent or within [-1.0, 1.0]. *)
Theorem transform_signal_clamps signal h r h' :
  transform_signal signal h = (inr r, h') →
  ∃ a b c d e,
    values_of h' signal !! "storm_bringer" = Some (PFloat a) ∧
    values_of h' signal !! "void_singer" = Some (PFloat b) ∧
    values_of h' signal !! "spark_lord" = Some (PFloat c) ∧
    values_of h' signal !! "quiet_tide" = Some (PFloat d) ∧
    values_of h' signal !! "silk_shadow" = Some (PFloat e) ∧
    (a <=? 1.0)%float = true ∧ (b <=? 1.0)%float = true ∧ (c <=? 1.0)%float = true ∧
    (-1.0 <=? d)%float = true ∧ (-1.0 <=? e)%float = true ∧
    ((∀ k, k ∈ named → weight_in_range (values_of h signal !! k)) →
     in_range a ∧ in_range b ∧ in_range c ∧ in_range d ∧ in_range e).
Proof.
  intros (_ & ws & Hws & ->)%transform_signal_values.
  destruct (entries_adjusted (values_of h signal) ws) as (H1 & H2 & H3 & H4 & H5).
  eexists _, _, _, _, _. do 5 (split; [eassumption|]).
  unfold advance; simpl.
  do 3 (split; [apply py_min_le, one_facts|]).
  do 2 (split; [apply py_max_ge, mone_facts|]).
  intros Hr. apply (advance_in_range ws). by apply (operands_in_range (values_of h signal)).
Qed.

Lemma transform_signal_clamps_witness :
  transform_signal (PDict 1%positive) storm_at_09 =
    (inr (PDict 1%positive), (transform_signal (PDict 1%positive) storm_at_09).2) ∧
  ∃ a, values_of (transform_signal (PDict 1%positive) storm_at_09).2 (PDict 1%positive)
         !! "storm_bringer" = Some (PFloat a) ∧ (a <=? 1.0)%float = true.
Proof.
  assert (Hrun : transform_signal (PDict 1%positive) storm_at_09 =
    (inr (PDict 1%positive), (transform_signal (PDict 1%positive) storm_at_09).2)) by computed.
  split; [exact Hrun|].
  destruct (transform_signal_clamps _ _ _ _ Hrun)
    as (a & _ & _ & _ & _ & Ha & _ & _ & _ & _ & Hle & _).
  exists a. split; [exact Ha|exact Hle].
Defined.

Lemma frozen_storm_holds :
  holds frozen_storm (PDict 1%positive) (Weights (-1e300) 1.0 1.0 (-1.0) (-1.0)).
Proof.
  exists 1%positive, {[ "values" := PDict 2%positive ]}, 2%positive,
    {[ "storm_bringer" := PFloat (-1e300); "void_singer" := PFloat 1.0;
       "spark_lord" := PFloat 1.0; "quiet_tide" := PFloat (-1.0);
       "silk_shadow" := PFloat (-1.0) ]}.
  unfold entries. repeat split; computed.
Qed.

Lemma frozen_storm_stays n :
  iterate n (PDict 1%positive) frozen_storm = (inr (PDict 1%positive), frozen_storm).
Proof.
  induction n as [|n IH]; [done|].
  destruct (holds_step _ _ _ frozen_storm_holds) as (h' & Hrun & _ & Hfix).
  rewrite (Hfix ltac:(computed)) in Hrun.
  by rewrite (iterate_first _ _ _ _ _ Hrun).
Qed.

(** C6, as stated, fails twice.  The call is not total on numeric weights:
    an int beyond the floats raises [OverflowError].  And a fixed point need
    not be at the clamp bound: -1e300 + 0.35 rounds to -1e300, so a
    [storm_bringer] of -1e300 stays where it is however often the transform
    is applied, and never reaches 1.0. *)
Lemma saturation_fails_far_below :
  (transform_signal (PDict 1%positive) storm_at_10_pow_400).1 = inl OverflowError ∧
  ¬ ∃ n h',
      iterate n (PDict 1%positive) frozen_storm = (inr (PDict 1%positive), h') ∧
      values_of h' (PDict 1%positive) !! "storm_bringer" = Some (PFloat 1.0).
Proof.
  split; [computed|]. intros (n & h' & Hit & Hv).
  rewrite frozen_storm_stays in Hit. injection Hit as <-.
  assert (E : values_of frozen_storm (PDict 1%positive) !! "storm_bringer" =
              Some (PFloat (-1e300))) by computed.
  rewrite E in Hv.
  apply (f_equal (λ o, match o with Some (PFloat x) => (x <? 0)%float | _ => false end)) in Hv.
  vm_compute in Hv. discriminate.
Qed.

(** C6, amended: the call returns on every dict signal whose values mapping
    is absent or a dict and whose five entries are absent or numbers that
    convert to floats; it is not idempotent; from every signal on which it
    returns, repeated application reaches a store that one more application
    leaves as it is; and when the five entries are absent or within
    [-1.0, 1.0], twenty-one applications reach it, with the amplified keys at
    1.0 and the dampened keys at -1.0. *)
Theorem transform_signal_converges signal h :
  (is_Some (deref h signal) →
   field h signal "values" = None ∨ is_Some (field h signal "values" ≫= deref h) →
   is_Some (operands (values_of h signal)) →
   ∃ h', transform_signal signal h = (inr signal, h')) ∧
  (transform_signal (PDict 1%positive) empty_signal = (inr (PDict 1%positive), amplified_once) ∧
   transform_signal (PDict 1%positive) amplified_once = (inr (PDict 1%positive), amplified_twice) ∧
   amplified_twice ≠ amplified_once) ∧
  (∀ r h1, transform_signal signal h = (inr r, h1) →
     ∃ n h', iterate n signal h = (inr signal, h') ∧
             transform_signal signal h' = (inr signal, h')) ∧
  (∀ r h1, transform_signal signal h = (inr r, h1) →
     (∀ k, k ∈ named → weight_in_range (values_of h signal !! k)) →
     ∃ h', iterate 21 signal h = (inr signal, h') ∧
           transform_signal signal h' = (inr signal, h') ∧
           values_of h' signal !! "storm_bringer" = Some (PFloat 1.0) ∧
           values_of h' signal !! "void_singer" = Some (PFloat 1.0) ∧
           values_of h' signal !! "spark_lord" = Some (PFloat 1.0) ∧
           values_of h' signal !! "quiet_tide" = Some (PFloat (-1.0)) ∧
           values_of h' signal !! "silk_shadow" = Some (PFloat (-1.0))).
Proof.
  split; [apply transform_signal_total|]. split.
  { split; [computed|]. split; [computed|]. intros E.
    assert (F : values_of amplified_twice (PDict 1%positive) !! "storm_bringer" =
                values_of amplified_once (PDict 1%positive) !! "storm_bringer") by (by rewrite E).
    apply (f_equal (λ o, match o with Some (PFloat x) => (x <? 0.5)%float | _ => false end)) in F.
    vm_compute in F. discriminate. }
  split.
  - intros r h1 Hrun.
    destruct (transform_signal_holds _ _ _ _ Hrun) as (ws & _ & Hh).
    destruct (advance_converges (advance ws)) as [n Hn].
    destruct (iterate_holds n _ _ _ Hh) as (h' & Hit & Hh').
    exists (S n), h'. split; [by rewrite (iterate_first _ _ _ _ _ Hrun)|].
    destruct (holds_step _ _ _ Hh') as (h'' & Hrun' & _ & Hfix).
    by rewrite (Hfix Hn) in Hrun'.
  - intros r h1 Hrun Hr.
    destruct (transform_signal_holds _ _ _ _ Hrun) as (ws & Hws & Hh).
    destruct (operands_in_range _ _ Hws Hr) as (R1 & R2 & R3 & R4 & R5).
    destruct (iterate_holds 20 _ _ _ Hh) as (h' & Hit & Hh').
    rewrite <- Nat.iter_succ_r, (advance_saturates ws R1 R2 R3 R4 R5) in Hh'.
    exists h'. split; [by rewrite (iterate_first _ _ _ _ _ Hrun)|].
    destruct (holds_step _ _ _ Hh') as (h'' & Hrun' & _ & Hfix).
    rewrite (Hfix advance_saturated) in Hrun'. split; [done|].
    apply (holds_values h' signal saturated Hh').
Qed.

Lemma transform_signal_converges_witness :
  transform_signal (PDict 1%positive) empty_signal = (inr (PDict 1%positive), amplified_once) ∧
  (∀ k, k ∈ named → weight_in_range (values_of empty_signal (PDict 1%positive) !! k)) ∧
  ∃ h', iterate 21 (PDict 1%positive) empty_signal = (inr (PDict 1%positive), h') ∧
        transform_signal (PDict 1%positive) h' = (inr (PDict 1%positive), h') ∧
        values_of h' (PDict 1%positive) !! "storm_bringer" = Some (PFloat 1.0).
Proof.
  assert (Hrun : transform_signal (PDict 1%positive) empty_signal =
                 (inr (PDict 1%positive), amplified_once)) by computed.
  assert (Hr : ∀ k, k ∈ named → weight_in_range (values_of empty_signal (PDict 1%positive) !! k)).
  { intros k _. exists 0%float.
    assert (values_of empty_signal (PDict 1%positive) = ∅) as -> by computed.
    rewrite lookup_empty. split; [computed|]. split; computed. }
  split; [exact Hrun|]. split; [exact Hr|].
  destruct (proj2 (proj2 (proj2 (transform_signal_converges (PDict 1%positive) empty_signal)))
              _ _ Hrun Hr) as (h' & H1 & H2 & H3 & _).
  exists h'. split; [exact H1|]. split; [exact H2|exact H3].
Defined.

(** ** The message handler *)

Section HandlerClaims.
Context {frame : Type}.
Variable json_loads : frame → heap → option (pyval * heap).
Variable json_dumps : heap → pyval → frame.

(** C2: when the handler answers a [transform] message, the frame it sends
    is the encoding of a [transform_result] whose [request_id] is the
    [request_id] of that message, as decoded. *)
Theorem on_message_echoes_request_id message w w' msg h1 :
  on_message json_loads json_dumps message w = (inr (), w') →
  json_loads message (store w) = Some (msg, h1) →
  field h1 msg "type" = Some (PStr "transform") →
  ∃ response rid,
    sent w' = sent w ++ [json_dumps (store w') response] ∧
    field (store w') response "type" = Some (PStr "transform_result") ∧
    field h1 msg "request_id" = Some rid ∧
    field (store w') msg "request_id" = Some rid ∧
    field (store w') response "request_id" = Some rid.
Proof.
  intros Hrun Hl Hty.
  destruct (on_message_transform_inv _ _ _ _ _ _ _ Hrun Hl Hty)
    as (signal & rid & h2 & Hs & Htr & Hrid & Hc & ->).
  exists (PDict (fresh (dom h2))), rid. simpl.
  repeat split; try done.
  - unfold field; simpl. by rewrite lookup_insert_eq.
  - rewrite field_alloc.
    + by rewrite (transform_signal_field _ _ _ _ msg "request_id" Htr request_id_not_named).
    + eapply transform_signal_alloc; [done|]. by eapply field_deref.
  - unfold field; simpl. rewrite lookup_insert_eq. simpl. unfold response_dict.
    by rewrite lookup_insert_ne, lookup_insert_eq.
Qed.

(** C7, amended: a message whose type is anything but ["transform"] —
    [registered], [pong], or an unknown discriminator — makes the handler
    send nothing and leaves the connection as it was.  The handler returns
    without an exception on every such message but one: it reads
    [msg['agent_id']] for the log line of a [registered] message, so a
    [registered] message without [agent_id] raises [KeyError], nothing being
    sent.  And a handler run that sends a frame was given a [transform]
    message. *)
Theorem on_message_other_types message w :
  (∀ msg h1 t,
     json_loads message (store w) = Some (msg, h1) →
     field h1 msg "type" = Some t →
     t ≠ PStr "transform" →
     sent (on_message json_loads json_dumps message w).2 = sent w ∧
     connected (on_message json_loads json_dumps message w).2 = connected w ∧
     ((t = PStr "registered" → is_Some (field h1 msg "agent_id")) →
      on_message json_loads json_dumps message w =
        (inr (), World h1 (sent w) (connected w))) ∧
     (t = PStr "registered" → field h1 msg "agent_id" = None →
      on_message json_loads json_dumps message w =
        (inl (KeyError "agent_id"), World h1 (sent w) (connected w)))) ∧
  (∀ res w',
     on_message json_loads json_dumps message w = (res, w') →
     sent w' ≠ sent w →
     ∃ msg h1, json_loads message (store w) = Some (msg, h1) ∧
               field h1 msg "type" = Some (PStr "transform")).
Proof.
  destruct w as [h0 s0 c0]. rewrite on_message_eq. simpl. split.
  - intros msg h1 t -> Hty Hnt. unfold field in *.
    destruct (deref h1 msg) as [md|]; [|done]. simpl in *. rewrite Hty.
    destruct (py_eq_str t "transform") eqn:Ht.
    { by apply py_eq_str_true in Ht. }
    destruct (py_eq_str t "registered") eqn:Hr.
    + apply py_eq_str_true in Hr.
      destruct (md !! "agent_id") as [a|]; repeat split; try done.
      intros Hreg. by destruct (Hreg Hr).
    + repeat split; try done.
      intros Hreg%py_eq_str_true. congruence.
  - intros res w'.
    destruct (json_loads message h0) as [[msg h1]|]; [|by intros [= <- <-]].
    unfold field. destruct (deref h1 msg) as [md|] eqn:Hmd; [|by intros [= <- <-]].
    simpl. destruct (md !! "type") as [t|] eqn:Hty; [|by intros [= <- <-]].
    destruct (py_eq_str t "transform") eqn:Ht.
    { apply py_eq_str_true in Ht as ->. intros _ _. exists msg, h1. by rewrite Hmd. }
    destruct (py_eq_str t "registered"); [|by intros [= <- <-]].
    destruct (md !! "agent_id"); by intros [= <- <-].
Qed.

(** C5, as the code has it: a frame that is not JSON raises
    [JSONDecodeError] out of the handler, a message without [type] raises
    [KeyError], a [transform] message without [request_id] raises as well;
    whenever the handler raises, no frame has been sent and the connection
    state is as it was; [on_error], which the client library calls with the
    exception, only prints. *)
Theorem on_message_malformed message w :
  (json_loads message (store w) = None →
   on_message json_loads json_dumps message w = (inl JSONDecodeError, w)) ∧
  (∀ msg h1,
     json_loads message (store w) = Some (msg, h1) →
     is_Some (deref h1 msg) → field h1 msg "type" = None →
     on_message json_loads json_dumps message w =
       (inl (KeyError "type"), World h1 (sent w) (connected w))) ∧
  (∀ msg h1,
     json_loads message (store w) = Some (msg, h1) →
     field h1 msg "type" = Some (PStr "transform") →
     field h1 msg "request_id" = None →
     ∃ e h2, on_message json_loads json_dumps message w =
               (inl e, World h2 (sent w) (connected w))) ∧
  (∀ e w',
     on_message json_loads json_dumps message w = (inl e, w') →
     sent w' = sent w ∧ connected w' = connected w) ∧
  (∀ e, on_error (frame := frame) e w = (inr (), w)).
Proof.
  destruct w as [h0 s0 c0]. rewrite on_message_eq. simpl. repeat split.
  - by intros ->.
  - intros msg h1 -> [md Hmd]. unfold field. rewrite Hmd. simpl. by intros ->.
  - intros msg h1 -> Hty Hrid. unfold field in Hty, Hrid.
    destruct (deref h1 msg) as [md|] eqn:Hmd; [|done]. simpl in *.
    rewrite Hty. simpl.
    destruct (md !! "signal") as [s|]; [|by eexists _, _].
    destruct (transform_signal s h1) as [[e|signal] h2] eqn:Htr; [by eexists _, _|].
    destruct (getitem msg "request_id" h2).1 as [e|rid] eqn:Hg; [by eexists _, _|].
    apply getitem_field in Hg.
    rewrite (transform_signal_field _ _ _ _ msg "request_id" Htr request_id_not_named) in Hg by done.
    unfold field in Hg. rewrite Hmd in Hg. simpl in Hg. congruence.
  - revert H. destruct (json_loads message h0) as [[msg h1]|]; [|by intros [= <- <-]].
    destruct (deref h1 msg) as [md|]; [|by intros [= <- <-]].
    destruct (md !! "type") as [t|]; [|by intros [= <- <-]].
    destruct (py_eq_str t "transform").
    + destruct (md !! "signal") as [s|]; [|by intros [= <- <-]].
      destruct (transform_signal s h1) as [[e'|signal] h2]; [by intros [= <- <-]|].
      destruct (getitem msg "request_id" h2).1; [by intros [= <- <-]|].
      destruct c0; [done|by intros [= <- <-]].
    + destruct (py_eq_str t "registered"); [|done].
      destruct (md !! "agent_id"); [done|by intros [= <- <-]].
  - revert H. destruct (json_loads message h0) as [[msg h1]|]; [|by intros [= <- <-]].
    destruct (deref h1 msg) as [md|]; [|by intros [= <- <-]].
    destruct (md !! "type") as [t|]; [|by intros [= <- <-]].
    destruct (py_eq_str t "transform").
    + destruct (md !! "signal") as [s|]; [|by intros [= <- <-]].
      destruct (transform_signal s h1) as [[e'|signal] h2]; [by intros [= <- <-]|].
      destruct (getitem msg "request_id" h2).1; [by intros [= <- <-]|].
      destruct c0; [done|by intros [= <- <-]].
    + destruct (py_eq_str t "registered"); [|done].
      destruct (md !! "agent_id"); [done|by intros [= <- <-]].
Qed.

(** C8: on an open connection [on_open] sends exactly one frame, the
    encoding of a new [register] message with [agent_id] "storm_amplifier"
    and capabilities ["transform"]; the other callbacks that no inbound
    message triggers, [on_error] and [on_close], send nothing. *)
Theorem on_open_registers w :
  connected w = true →
  ∃ register_msg h',
    on_open json_dumps w =
      (inr (), World h' (sent w ++ [json_dumps h' register_msg]) true) ∧
    deref (store w) register_msg = None ∧
    deref h' register_msg =
      Some {[ "type" := PStr "register"; "agent_id" := PStr "storm_amplifier";
              "capabilities" := PList [PStr "transform"] ]} ∧
    (∀ e, on_error (frame := frame) e w = (inr (), w)) ∧
    (∀ code reason, on_close (frame := frame) code reason w = (inr (), w)).
Proof.
  destruct w as [h0 s0 c0]. simpl. intros ->. rewrite on_open_eq. simpl.
  eexists (PDict _), _. split; [done|]. simpl. repeat split.
  - apply not_elem_of_dom, is_fresh.
  - by rewrite lookup_insert_eq.
Qed.

(** The signal inside the response is the very object the request carried:
    one reference, updated in place, which the request still carries. *)
Lemma on_message_same_signal message w w' msg h1 :
  on_message json_loads json_dumps message w = (inr (), w') →
  json_loads message (store w) = Some (msg, h1) →
  field h1 msg "type" = Some (PStr "transform") →
  ∃ response signal ws,
    sent w' = sent w ++ [json_dumps (store w') response] ∧
    field h1 msg "signal" = Some signal ∧
    field (store w') msg "signal" = Some signal ∧
    field (store w') response "signal" = Some signal ∧
    deref h1 response = None ∧
    operands (values_of h1 signal) = Some ws ∧
    values_of (store w') signal = adjusted (values_of h1 signal) ws.
Proof.
  intros Hrun Hl Hty.
  destruct (on_message_transform_inv _ _ _ _ _ _ _ Hrun Hl Hty)
    as (signal & rid & h2 & Hs & Htr & Hrid & Hc & ->).
  destruct (transform_signal_values _ _ _ _ Htr) as (_ & ws & Hws & Hval).
  exists (PDict (fresh (dom h2))), signal, ws. simpl.
  assert (Hm2 : is_Some (deref h2 msg)).
  { eapply transform_signal_alloc; [done|]. by eapply field_deref. }
  repeat split; try done.
  - rewrite field_alloc by done.
    by rewrite (transform_signal_field _ _ _ _ msg "signal" Htr signal_not_named).
  - unfold field; simpl. rewrite lookup_insert_eq. simpl. unfold response_dict.
    rewrite !lookup_insert_ne by done. apply lookup_singleton_eq.
  - destruct (h1 !! fresh (dom h2)) as [d|] eqn:Hd; [|done].
    destruct (is_fresh (dom h2)).
    apply elem_of_dom. apply (transform_signal_alloc _ _ _ _ (PDict (fresh (dom h2))) Htr).
    simpl. eauto.
  - rewrite <- Hval. apply values_of_alloc.
    apply transform_signal_inv in Htr
      as (ls & sd & lv & vd & h1' & ws' & -> & _ & Hls & Hcell & _ & ->).
    unfold field, transformed; simpl. rewrite lookup_insert_eq; simpl.
    rewrite lookup_insert_eq; simpl. rewrite lookup_insert. case_decide; [done|].
    by rewrite lookup_insert_eq.
Qed.

(** C10: away from a signal that is its own values mapping, a call that
    returns hands back the signal it was given with every top-level field
    other than ["values"] as it was; and the signal inside the
    [transform_result] is the object the [transform] request carried,
    updated in place, not a new record: the response did not exist before
    the request was decoded, and request and response refer to one signal. *)
Theorem transform_signal_in_place message w :
  (∀ signal h r h',
     transform_signal signal h = (inr r, h') →
     field h signal "values" ≠ Some signal →
     r = signal ∧ ∀ k, k ≠ "values" → field h' signal k = field h signal k) ∧
  (∀ w' msg h1,
     on_message json_loads json_dumps message w = (inr (), w') →
     json_loads message (store w) = Some (msg, h1) →
     field h1 msg "type" = Some (PStr "transform") →
     ∃ response signal ws,
       sent w' = sent w ++ [json_dumps (store w') response] ∧
       field h1 msg "signal" = Some signal ∧
       field (store w') msg "signal" = Some signal ∧
       field (store w') response "signal" = Some signal ∧
       deref h1 response = None ∧
       operands (values_of h1 signal) = Some ws ∧
       values_of (store w') signal = adjusted (values_of h1 signal) ws).
Proof.
  split.
  - intros signal h r h' Hrun Hcyc.
    split; [by destruct (transform_signal_values _ _ _ _ Hrun)|].
    intros k Hk. by apply (transform_signal_top _ _ _ _ _ Hrun).
  - intros w' msg h1. apply on_message_same_signal.
Qed.
End HandlerClaims.

(** ** The scenarios of the handler, run on the reference codec *)

(** Scenario 3: the answer to [transform] "r1" on an empty values mapping. *)
Example scenario_3 :
  on_message doc_loads doc_dumps transform_r1 idle = (inr (), answered_r1) ∧
  sent answered_r1 =
    [Doc (JObj [("signal",
                 JObj [("values",
                        JObj [("silk_shadow", JFloat (-0.10)); ("storm_bringer", JFloat 0.35);
                              ("spark_lord", JFloat 0.10); ("quiet_tide", JFloat (-0.20));
                              ("void_singer", JFloat 0.15)])]);
                ("request_id", JStr "r1"); ("type", JStr "transform_result")])].
Proof. split; computed. Qed.

(** Scenario 4: [pong] is answered by nothing. *)
Example scenario_4 :
  (on_message doc_loads doc_dumps pong idle).1 = inr () ∧
  sent (on_message doc_loads doc_dumps pong idle).2 = [].
Proof. split; computed. Qed.

(** Scenario 5: an unknown type is ignored. *)
Example scenario_5 :
  (on_message doc_loads doc_dumps mystery idle).1 = inr () ∧
  sent (on_message doc_loads doc_dumps mystery idle).2 = [] ∧
  connected (on_message doc_loads doc_dumps mystery idle).2 = true.
Proof. repeat split; computed. Qed.

(** C7, as stated, fails: a [registered] message is not handled without a
    crash whatever it carries.  On [{"type": "registered"}] the log line of
    the handler reads [msg['agent_id']] and raises [KeyError]. *)
Lemma registered_without_agent_id :
  ∃ msg h1,
    doc_loads (Doc (JObj [("type", JStr "registered")])) (store idle) = Some (msg, h1) ∧
    field h1 msg "type" = Some (PStr "registered") ∧
    on_message doc_loads doc_dumps (Doc (JObj [("type", JStr "registered")])) idle =
      (inl (KeyError "agent_id"), World h1 [] true).
Proof.
  exists (load (JObj [("type", JStr "registered")]) ∅).1,
         (load (JObj [("type", JStr "registered")]) ∅).2.
  repeat split; computed.
Qed.

Lemma on_message_echoes_request_id_witness :
  on_message doc_loads doc_dumps transform_r1 idle = (inr (), answered_r1) ∧
  doc_loads transform_r1 (store idle) = Some (decoded_r1.1, decoded_r1.2) ∧
  field decoded_r1.2 decoded_r1.1 "type" = Some (PStr "transform") ∧
  ∃ response rid,
    sent answered_r1 = sent idle ++ [doc_dumps (store answered_r1) response] ∧
    field (store answered_r1) response "type" = Some (PStr "transform_result") ∧
    field decoded_r1.2 decoded_r1.1 "request_id" = Some rid ∧
    field (store answered_r1) decoded_r1.1 "request_id" = Some rid ∧
    field (store answered_r1) response "request_id" = Some rid.
Proof.
  assert (H1 : on_message doc_loads doc_dumps transform_r1 idle = (inr (), answered_r1)) by computed.
  assert (H2 : doc_loads transform_r1 (store idle) = Some (decoded_r1.1, decoded_r1.2)) by computed.
  assert (H3 : field decoded_r1.2 decoded_r1.1 "type" = Some (PStr "transform")) by computed.
  split; [exact H1|]. split; [exact H2|]. split; [exact H3|].
  exact (on_message_echoes_request_id doc_loads doc_dumps _ _ _ _ _ H1 H2 H3).
Defined.

Lemma on_message_other_types_witness :
  doc_loads pong (store idle) = Some (decoded_pong.1, decoded_pong.2) ∧
  field decoded_pong.2 decoded_pong.1 "type" = Some (PStr "pong") ∧
  PStr "pong" ≠ PStr "transform" ∧
  sent (on_message doc_loads doc_dumps pong idle).2 = sent idle ∧
  connected (on_message doc_loads doc_dumps pong idle).2 = connected idle ∧
  on_message doc_loads doc_dumps pong idle =
    (inr (), World decoded_pong.2 (sent idle) (connected idle)).
Proof.
  assert (H1 : doc_loads pong (store idle) = Some (decoded_pong.1, decoded_pong.2)) by computed.
  assert (H2 : field decoded_pong.2 decoded_pong.1 "type" = Some (PStr "pong")) by computed.
  assert (H3 : PStr "pong" ≠ PStr "transform") by discriminate.
  split; [exact H1|]. split; [exact H2|]. split; [exact H3|].
  destruct (proj1 (on_message_other_types doc_loads doc_dumps pong idle) _ _ _ H1 H2 H3)
    as (Hsent & Hconn & Hret & _).
  split; [exact Hsent|]. split; [exact Hconn|].
  apply Hret. discriminate.
Defined.

(** C5, as stated, fails: text that is not JSON makes the handler raise, and
    so does a message without [type]; nothing in the handler catches. *)
Lemma malformed_frame_raises :
  on_message doc_loads doc_dumps not_json idle = (inl JSONDecodeError, idle) ∧
  (on_message doc_loads doc_dumps no_type idle).1 = inl (KeyError "type") ∧
  (on_message doc_loads doc_dumps no_request_id idle).1 = inl (KeyError "request_id").
Proof. repeat split; computed. Qed.

Lemma on_message_malformed_witness :
  doc_loads not_json (store idle) = None ∧
  on_message doc_loads doc_dumps not_json idle = (inl JSONDecodeError, idle) ∧
  doc_loads no_request_id (store idle) =
    Some (decoded_no_request_id.1, decoded_no_request_id.2) ∧
  field decoded_no_request_id.2 decoded_no_request_id.1 "type" = Some (PStr "transform") ∧
  field decoded_no_request_id.2 decoded_no_request_id.1 "request_id" = None ∧
  ∃ e h2, on_message doc_loads doc_dumps no_request_id idle =
            (inl e, World h2 (sent idle) (connected idle)).
Proof.
  assert (H1 : doc_loads not_json (store idle) = None) by computed.
  assert (H2 : doc_loads no_request_id (store idle) =
               Some (decoded_no_request_id.1, decoded_no_request_id.2)) by computed.
  assert (H3 : field decoded_no_request_id.2 decoded_no_request_id.1 "type" =
               Some (PStr "transform")) by computed.
  assert (H4 : field decoded_no_request_id.2 decoded_no_request_id.1 "request_id" = None)
    by computed.
  split; [exact H1|].
  split; [exact (proj1 (on_message_malformed doc_loads doc_dumps not_json idle) H1)|].
  split; [exact H2|]. split; [exact H3|]. split; [exact H4|].
  exact (proj1 (proj2 (proj2 (on_message_malformed doc_loads doc_dumps no_request_id idle)))
           _ _ H2 H3 H4).
Defined.

Lemma on_open_registers_witness :
  connected idle = true ∧
  ∃ register_msg h',
    on_open doc_dumps idle =
      (inr (), World h' (sent idle ++ [doc_dumps h' register_msg]) true) ∧
    deref h' register_msg =
      Some {[ "type" := PStr "register"; "agent_id" := PStr "storm_amplifier";
              "capabilities" := PList [PStr "transform"] ]}.
Proof.
  assert (H : connected idle = true) by reflexivity.
  split; [exact H|].
  destruct (on_open_registers doc_dumps idle H) as (m & h' & H1 & _ & H2 & _).
  exists m, h'. split; [exact H1|exact H2].
Defined.

(** The register frame, as the reference codec writes it. *)
Example scenario_open :
  sent registered_world =
    [Doc (JObj [("capabilities", JArr [JStr "transform"]);
                ("agent_id", JStr "storm_amplifier"); ("type", JStr "register")])].
Proof. computed. Qed.

Lemma transform_signal_in_place_witness :
  transform_signal (PDict 1%positive) storm_and_more = (inr (PDict 1%positive), storm_and_more_after) ∧
  field storm_and_more (PDict 1%positive) "values" ≠ Some (PDict 1%positive) ∧
  field storm_and_more_after (PDict 1%positive) "origin" =
    field storm_and_more (PDict 1%positive) "origin" ∧
  on_message doc_loads doc_dumps transform_r1 idle = (inr (), answered_r1) ∧
  ∃ response signal,
    field decoded_r1.2 decoded_r1.1 "signal" = Some signal ∧
    field (store answered_r1) decoded_r1.1 "signal" = Some signal ∧
    field (store answered_r1) response "signal" = Some signal.
Proof.
  assert (Hrun : transform_signal (PDict 1%positive) storm_and_more =
                 (inr (PDict 1%positive), storm_and_more_after)) by computed.
  assert (Hcyc : field storm_and_more (PDict 1%positive) "values" ≠ Some (PDict 1%positive)).
  { assert (field storm_and_more (PDict 1%positive) "values" = Some (PDict 2%positive)) as ->
      by computed. discriminate. }
  assert (H1 : on_message doc_loads doc_dumps transform_r1 idle = (inr (), answered_r1)) by computed.
  assert (H2 : doc_loads transform_r1 (store idle) = Some (decoded_r1.1, decoded_r1.2)) by computed.
  assert (H3 : field decoded_r1.2 decoded_r1.1 "type" = Some (PStr "transform")) by computed.
  split; [exact Hrun|]. split; [exact Hcyc|].
  split.
  { apply (proj1 (transform_signal_in_place doc_loads doc_dumps transform_r1 idle)
             _ _ _ _ Hrun Hcyc). discriminate. }
  split; [exact H1|].
  destruct (proj2 (transform_signal_in_place doc_loads doc_dumps transform_r1 idle)
              _ _ _ H1 H2 H3) as (response & signal & ws & _ & Ha & Hb & Hc & _).
  exists response, signal. split; [exact Ha|]. split; [exact Hb|exact Hc].
Defined.

(** * Further properties *)

(** ** The clamps on binary64 *)












(** ** The entries one call writes *)





Lemma quiet_tide_dampened : ("quiet_tide", 0.20%float) ∈ dampened.
Proof. unfold dampened. rewrite !elem_of_cons. eauto. Qed.




(** ** The arithmetic of one call *)









(** ** Exceptions and the store *)

Lemma operand_absent : operand None = inr 0%float.
Proof. computed. Qed.



















(** ** Repeated application, further *)












(** The counts are attained: from the far bounds of the range, one call
    fewer leaves each key short of its bound. *)
Example calls_needed_attained :
  Nat.iter 5 (amp 0.35) (-1)%float ≠ 1%float ∧
  Nat.iter 13 (amp 0.15) (-1)%float ≠ 1%float ∧
  Nat.iter 20 (amp 0.10) (-1)%float ≠ 1%float ∧
  Nat.iter 9 (damp 0.20) 1%float ≠ (-1)%float ∧
  Nat.iter 20 (damp 0.10) 1%float ≠ (-1)%float.
Proof.
  repeat split; intros E.
  - apply (f_equal (λ x, (x <? 1)%float)) in E. vm_compute in E. discriminate.
  - apply (f_equal (λ x, (x <? 1)%float)) in E. vm_compute in E. discriminate.
  - apply (f_equal (λ x, (x <? 1)%float)) in E. vm_compute in E. discriminate.
  - apply (f_equal (λ x, (-1 <? x)%float)) in E. vm_compute in E. discriminate.
  - apply (f_equal (λ x, (-1 <? x)%float)) in E. vm_compute in E. discriminate.
Qed.



(** ** The handler, further *)

Section HandlerExtras.
Context {frame : Type}.
Variable json_loads : frame → heap → option (pyval * heap).
Variable json_dumps : heap → pyval → frame.




End HandlerExtras.




